(** * HTLCMultiSig: a hash time-locked escrow with 2-of-3 arbitration

    Shallow embedding of [contracts/HTLCMultiSig.sol] and proofs about its
    state machine.  Solidity values are modelled as follows:

    - [address], [bytes32] and [uint256] are integers ([Z]); checked
      arithmetic of Solidity 0.8 is written out where the contract adds;
    - [mapping(bytes32 => Trade)] is a [gmap] read with a default (the
      all-zero [Trade]), as a Solidity mapping is;
    - a call is a computation in a state-and-revert monad: a revert
      discards every write of the call;
    - [payable(a).transfer(v)] hands control to the recipient, which may
      refuse the payment or call back into the contract;
    - [ECDSA.recover] of OpenZeppelin's library is written out with its
      three errors; the hash functions and the [ecrecover] precompile
      are parameters. *)

From Stdlib Require Import ZArith List Ascii String Bool Lia.
From stdpp Require Import gmap strings list fin_maps.
Import ListNotations.

Local Open Scope Z_scope.

(** ** Solidity value types *)

Abbreviation address := Z (only parsing).
Abbreviation bytes32 := Z (only parsing).
Abbreviation uint256 := Z (only parsing).
Abbreviation bytes := (list Z) (only parsing).

Definition UINT256_MAX : Z := 2 ^ 256 - 1.

(** [abi.encodePacked] of a fixed-width value: [n] bytes, big-endian. *)
Fixpoint be_bytes (n : nat) (x : Z) : bytes :=
  match n with
  | O => []
  | S k => be_bytes k (x / 256) ++ [x mod 256]
  end.

(** ** Data model *)

Module Status.
Inductive t := Uninitialized | Locked | Completed | Refunded.

Definition eqb (a b : t) : bool :=
  match a, b with
  | Uninitialized, Uninitialized | Locked, Locked
  | Completed, Completed | Refunded, Refunded => true
  | _, _ => false
  end.

Definition terminal (a : t) : bool :=
  match a with Completed | Refunded => true | _ => false end.
End Status.

Record Trade := {
  buyer : address;
  seller : address;
  arbiter : address;
  amount : uint256;
  hashLock : bytes32;
  timelock : uint256;
  status : Status.t
}.

(** The value a mapping returns for a key never written. *)
Definition zero_trade : Trade :=
  {| buyer := 0; seller := 0; arbiter := 0; amount := 0; hashLock := 0;
     timelock := 0; status := Status.Uninitialized |}.

#[global] Instance Trade_inhabited : Inhabited Trade := populate zero_trade.

Definition with_status (st : Status.t) (t : Trade) : Trade :=
  {| buyer := buyer t; seller := seller t; arbiter := arbiter t;
     amount := amount t; hashLock := hashLock t; timelock := timelock t;
     status := st |}.

Inductive Event :=
| Locked (tradeId : bytes32) (buyer seller : address) (amount : uint256)
         (hashLock : bytes32) (timelock : uint256)
| Withdrawn (tradeId : bytes32) (recipient : address) (method : string)
| Refunded (tradeId : bytes32) (recipient : address).

(** What a call does to the outside world, in the order it happens. *)
Inductive Effect :=
| Emit (e : Event)
| Transfer (to : address) (value : uint256).

Record State := {
  trades : gmap Z Trade;
  entered : bool;            (* ReentrancyGuard's flag *)
  balance : uint256;         (* address(this).balance *)
  effects : list Effect
}.

Definition init : State :=
  {| trades := ∅; entered := false; balance := 0; effects := [] |}.

(** ** Reverts *)

Inductive Error :=
| ZeroAmount
| DuplicateTradeId
| InvalidAddress
| InvalidState
| InvalidPreimage
| MissingRequiredSignature
| InvalidRecipient
| InsufficientDistinctSignatures
| TimelockNotExpired
| ECDSAInvalidSignature
| ECDSAInvalidSignatureLength (length : uint256)
| ECDSAInvalidSignatureS (s : bytes32)
| ReentrancyGuardReentrantCall
| ArithmeticOverflow
| TransferFailed.

(** The reason string of each [require] of the contract; for the reverts
    that come from the libraries and the EVM, the signature of the error,
    whose argument the constructor carries. *)
Definition reason (e : Error) : string :=
  match e with
  | ZeroAmount => "Amount must be greater than 0"
  | DuplicateTradeId => "Trade ID already exists"
  | InvalidAddress => "Invalid addresses"
  | InvalidState => "Invalid status"
  | InvalidPreimage => "Invalid preimage"
  | MissingRequiredSignature =>
      "Missing required signatures from buyer and seller"
  | InvalidRecipient => "Invalid recipient"
  | InsufficientDistinctSignatures => "Need 2-of-3 signatures"
  | TimelockNotExpired => "Timelock not expired"
  | ECDSAInvalidSignature => "ECDSAInvalidSignature()"
  | ECDSAInvalidSignatureLength _ => "ECDSAInvalidSignatureLength(uint256)"
  | ECDSAInvalidSignatureS _ => "ECDSAInvalidSignatureS(bytes32)"
  | ReentrancyGuardReentrantCall => "ReentrancyGuardReentrantCall()"
  | ArithmeticOverflow => "Panic(0x11)"
  | TransferFailed => "transfer failed"
  end.

(** ** The state-and-revert monad *)

Definition M (A : Type) : Type := State -> Error + (A * State).

Definition ret {A} (a : A) : M A := fun s => inr (a, s).

Definition bind {A B} (c : M A) (k : A -> M B) : M B :=
  fun s => match c s with
           | inl e => inl e
           | inr (a, s') => k a s'
           end.

Definition throw {A} (e : Error) : M A := fun _ => inl e.

Declare Scope sol_scope.
Delimit Scope sol_scope with sol.
Notation "x <- c ;; k" := (bind c (fun x => k))
  (at level 100, c at next level, right associativity) : sol_scope.
Notation "c ;; k" := (bind c (fun _ => k))
  (at level 100, k at level 200, right associativity) : sol_scope.

Local Open Scope sol_scope.

Definition require (b : bool) (e : Error) : M unit :=
  if b then ret tt else throw e.

(** [trades[id]] as an rvalue. *)
Definition read (id : bytes32) : M Trade :=
  fun s => inr (trades s !!! id, s).

(** [trades[id] = t]. *)
Definition write (id : bytes32) (t : Trade) : M unit :=
  fun s => inr (tt, {| trades := <[id := t]> (trades s); entered := entered s;
                       balance := balance s; effects := effects s |}).

(** [trades[id].status = st], through a storage pointer. *)
Definition set_status (id : bytes32) (st : Status.t) : M unit :=
  fun s => write id (with_status st (trades s !!! id)) s.

Definition emit (e : Event) : M unit :=
  fun s => inr (tt, {| trades := trades s; entered := entered s;
                       balance := balance s;
                       effects := effects s ++ [Emit e] |}).

Definition set_entered (b : bool) : M unit :=
  fun s => inr (tt, {| trades := trades s; entered := b;
                       balance := balance s; effects := effects s |}).

(** A payable entry point is credited with [msg.value] before its body
    runs. *)
Definition credit (value : uint256) : M unit :=
  fun s => inr (tt, {| trades := trades s; entered := entered s;
                       balance := balance s + value;
                       effects := effects s |}).

(** Checked addition on [uint256]. *)
Definition checked_add (a b : uint256) : M uint256 :=
  if UINT256_MAX <? a + b then throw ArithmeticOverflow else ret (a + b).

(** The [nonReentrant] modifier of OpenZeppelin's ReentrancyGuard. *)
Definition nonReentrant (body : M unit) : M unit :=
  (fun s => require (negb (entered s)) ReentrancyGuardReentrantCall s) ;;
  set_entered true ;;
  body ;;
  set_entered false.

(** ** Signature counting of [resolveDispute]

    The two nested [for] loops: for each signer in turn, scan the
    participants; the first participant equal to the signer and different
    from [lastSigner] counts, is remembered, and ends the inner loop. *)

Fixpoint scan_participants (signer : address) (participants : list address)
    (validSignatures : uint256) (lastSigner : address) : uint256 * address :=
  match participants with
  | [] => (validSignatures, lastSigner)
  | p :: rest =>
      if (signer =? p) && negb (signer =? lastSigner)
      then (validSignatures + 1, signer)
      else scan_participants signer rest validSignatures lastSigner
  end.

Fixpoint count_signers (signers participants : list address)
    (validSignatures : uint256) (lastSigner : address) : uint256 :=
  match signers with
  | [] => validSignatures
  | sg :: rest =>
      let '(v, l) := scan_participants sg participants validSignatures lastSigner in
      count_signers rest participants v l
  end.

Arguments count_signers : simpl never.

(** ** Calls and the environment *)

Inductive Call :=
| CallLock (value : uint256) (_tradeId : bytes32) (_seller _arbiter : address)
           (_hashLock : bytes32) (_lockTime : uint256)
| CallWithdrawWithPreimage (_tradeId _preimage : bytes32) (_sig1 _sig2 : bytes)
| CallResolveDispute (_tradeId : bytes32) (_recipient : address)
                     (_sig1 _sig2 : bytes)
| CallRefund (_tradeId : bytes32).

Record Msg := { sender : address; call : Call }.

(** The trade a call is about. *)
Definition target (c : Call) : bytes32 :=
  match c with
  | CallLock _ id _ _ _ _ => id
  | CallWithdrawWithPreimage id _ _ _ => id
  | CallResolveDispute id _ _ _ => id
  | CallRefund id => id
  end.

(** What the chain outside the contract contributes to one transaction:
    the block's timestamp and the code of every account that may be paid.
    [on_receive a v] is [None] when [a] refuses a payment of [v], and
    otherwise lists the calls [a] makes back into the contract while it
    is being paid. *)
Record Env := {
  block_timestamp : uint256;
  on_receive : address -> uint256 -> option (list Msg)
}.

Inductive Outcome := Success | Reverted (e : Error).

(** An external call: on revert the state is the one before the call. *)
Definition attempt (c : M unit) (s : State) : Outcome * State :=
  match c s with
  | inl e => (Reverted e, s)
  | inr (_, s') => (Success, s')
  end.

(** The calls a paid account makes back, each against the state the
    previous one left. *)
Fixpoint reenter (exec : Msg -> M unit) (script : list Msg) (s : State) : State :=
  match script with
  | [] => s
  | m :: rest => reenter exec rest (snd (attempt (exec m) s))
  end.

(** The same run, recording for each call the state it started in and how
    it ended. *)
Fixpoint reentries (exec : Msg -> M unit) (script : list Msg) (s : State)
    : list (State * Msg * Outcome) :=
  match script with
  | [] => []
  | m :: rest =>
      let r := attempt (exec m) s in
      (s, m, fst r) :: reentries exec rest (snd r)
  end.

Definition pay (to : address) (value : uint256) (s : State) : State :=
  {| trades := trades s; entered := entered s; balance := balance s - value;
     effects := effects s ++ [Transfer to value] |}.

(** The prefix of [MessageHashUtils.toEthSignedMessageHash]:
    ["\x19Ethereum Signed Message:\n32"]. *)
Definition eth_prefix : bytes :=
  [25; 69; 116; 104; 101; 114; 101; 117; 109; 32; 83; 105; 103; 110; 101;
   100; 32; 77; 101; 115; 115; 97; 103; 101; 58; 10; 51; 50].


(** ** OpenZeppelin's ECDSA library, which the contract imports: errors
    and constants *)

Inductive RecoverError :=
| NoError
| InvalidSignature
| InvalidSignatureLength
| InvalidSignatureS.

(** Half the order of secp256k1: the largest [s] the library accepts. *)
Definition HALF_ORDER : Z :=
  0x7FFFFFFFFFFFFFFFFFFFFFFFFFFFFFFF5D576E7357A4501DDFE92F46681B20A0.

(** The value of a big-endian byte string, as [mload] reads a word. *)
Definition be_value (bs : bytes) : Z :=
  fold_left (fun acc b => acc * 256 + b) bs 0.

(** [_throwError]: the revert each [RecoverError] becomes, if any. *)
Definition throwError (err : RecoverError) (errorArg : bytes32) : option Error :=
  match err with
  | NoError => None
  | InvalidSignature => Some ECDSAInvalidSignature
  | InvalidSignatureLength => Some (ECDSAInvalidSignatureLength errorArg)
  | InvalidSignatureS => Some (ECDSAInvalidSignatureS errorArg)
  end.

Section Contract.

(** The hash functions and the signer-recovery precompile
    [ecrecover(hash, v, r, s)] are opaque; the precompile returns [0]
    when it recovers no signer. *)
Variable sha256 : bytes -> bytes32.
Variable keccak256 : bytes -> bytes32.
Variable ecrecover : bytes32 -> Z -> bytes32 -> bytes32 -> address.

Definition toEthSignedMessageHash (h : bytes32) : bytes32 :=
  keccak256 (eth_prefix ++ be_bytes 32 h).

(** [ECDSA.tryRecover(hash, signature)]: a signature of 65 bytes is read
    as [r] (32 bytes), [s] (32 bytes) and [v] (1 byte); [s] must not
    exceed half the group order, and the precompile must recover a
    non-zero signer. *)
Definition ECDSA_tryRecover (h : bytes32) (sig : bytes)
    : address * RecoverError * bytes32 :=
  if (Z.of_nat (length sig) =? 65) then
    let r := be_value (firstn 32 sig) in
    let s := be_value (firstn 32 (skipn 32 sig)) in
    let v := nth 64 sig 0 in
    if HALF_ORDER <? s then (0, InvalidSignatureS, s)
    else
      let signer := ecrecover h v r s in
      if signer =? 0 then (0, InvalidSignature, 0)
      else (signer, NoError, 0)
  else (0, InvalidSignatureLength, Z.of_nat (length sig)).

(** [ECDSA.recover]: [tryRecover], then [_throwError]. *)
Definition ECDSA_recover (h : bytes32) (sig : bytes) : M address :=
  let '(recovered, err, errorArg) := ECDSA_tryRecover h sig in
  match throwError err errorArg with
  | Some e => throw e
  | None => ret recovered
  end.

(** The signer [ECDSA.recover] returns, if it returns. *)
Definition ECDSA_signer (h : bytes32) (sig : bytes) : option address :=
  match ECDSA_tryRecover h sig with
  | (recovered, NoError, _) => Some recovered
  | _ => None
  end.

(** The revert of [ECDSA.recover] on a signature it rejects. *)
Definition ECDSA_revert (h : bytes32) (sig : bytes) : Error :=
  let '(_, err, errorArg) := ECDSA_tryRecover h sig in
  default ECDSAInvalidSignature (throwError err errorArg).

(** The revert of two [ECDSA.recover] calls in a row, one of which
    rejects its signature: that of the first call that does. *)
Definition signature_error (h : bytes32) (sig1 sig2 : bytes) : Error :=
  match ECDSA_signer h sig1 with
  | None => ECDSA_revert h sig1
  | Some _ => ECDSA_revert h sig2
  end.

(** [abi.encodePacked(_tradeId, _preimage)]: 32 + 32 bytes. *)
Definition preimage_message (_tradeId _preimage : bytes32) : bytes :=
  be_bytes 32 _tradeId ++ be_bytes 32 _preimage.

(** [abi.encodePacked(_tradeId, _recipient)]: 32 + 20 bytes. *)
Definition dispute_message (_tradeId : bytes32) (_recipient : address) : bytes :=
  be_bytes 32 _tradeId ++ be_bytes 20 _recipient.

Definition preimage_digest (_tradeId _preimage : bytes32) : bytes32 :=
  toEthSignedMessageHash (keccak256 (preimage_message _tradeId _preimage)).

Definition dispute_digest (_tradeId : bytes32) (_recipient : address) : bytes32 :=
  toEthSignedMessageHash (keccak256 (dispute_message _tradeId _recipient)).

Section Functions.

(** [payable(a).transfer(v)] and [block.timestamp]. *)
Variable transfer : address -> uint256 -> M unit.
Variable timestamp : uint256.

Definition lock (msg_sender : address) (msg_value : uint256)
    (_tradeId : bytes32) (_seller _arbiter : address)
    (_hashLock : bytes32) (_lockTime : uint256) : M unit :=
  credit msg_value ;;
  require (0 <? msg_value) ZeroAmount ;;
  trade <- read _tradeId ;;
  require (Status.eqb (status trade) Status.Uninitialized) DuplicateTradeId ;;
  require (negb (_seller =? 0) && negb (_arbiter =? 0)) InvalidAddress ;;
  deadline <- checked_add timestamp _lockTime ;;
  write _tradeId
    {| buyer := msg_sender; seller := _seller; arbiter := _arbiter;
       amount := msg_value; hashLock := _hashLock; timelock := deadline;
       status := Status.Locked |} ;;
  trade <- read _tradeId ;;
  emit (Locked _tradeId msg_sender _seller msg_value _hashLock (timelock trade)).

Definition withdrawWithPreimage (_tradeId _preimage : bytes32)
    (_sig1 _sig2 : bytes) : M unit :=
  nonReentrant (
    trade <- read _tradeId ;;
    require (Status.eqb (status trade) Status.Locked) InvalidState ;;
    require (sha256 (be_bytes 32 _preimage) =? hashLock trade) InvalidPreimage ;;
    let messageHash := preimage_digest _tradeId _preimage in
    signer1 <- ECDSA_recover messageHash _sig1 ;;
    signer2 <- ECDSA_recover messageHash _sig2 ;;
    let hasBuyer := (signer1 =? buyer trade) || (signer2 =? buyer trade) in
    let hasSeller := (signer1 =? seller trade) || (signer2 =? seller trade) in
    require (hasBuyer && hasSeller) MissingRequiredSignature ;;
    set_status _tradeId Status.Completed ;;
    trade <- read _tradeId ;;
    transfer (seller trade) (amount trade) ;;
    trade <- read _tradeId ;;
    emit (Withdrawn _tradeId (seller trade) "Preimage + MultiSig")).

Definition resolveDispute (_tradeId : bytes32) (_recipient : address)
    (_sig1 _sig2 : bytes) : M unit :=
  nonReentrant (
    trade <- read _tradeId ;;
    require (Status.eqb (status trade) Status.Locked) InvalidState ;;
    require ((_recipient =? buyer trade) || (_recipient =? seller trade))
            InvalidRecipient ;;
    let messageHash := dispute_digest _tradeId _recipient in
    signer1 <- ECDSA_recover messageHash _sig1 ;;
    signer2 <- ECDSA_recover messageHash _sig2 ;;
    let participants := [buyer trade; seller trade; arbiter trade] in
    let signers := [signer1; signer2] in
    let validSignatures := count_signers signers participants 0 0 in
    require (2 <=? validSignatures) InsufficientDistinctSignatures ;;
    set_status _tradeId Status.Completed ;;
    trade <- read _tradeId ;;
    transfer _recipient (amount trade) ;;
    emit (Withdrawn _tradeId _recipient "Arbitration")).

Definition refund (_tradeId : bytes32) : M unit :=
  nonReentrant (
    trade <- read _tradeId ;;
    require (Status.eqb (status trade) Status.Locked) InvalidState ;;
    require (timelock trade <=? timestamp) TimelockNotExpired ;;
    set_status _tradeId Status.Refunded ;;
    trade <- read _tradeId ;;
    transfer (buyer trade) (amount trade) ;;
    trade <- read _tradeId ;;
    emit (Refunded _tradeId (buyer trade))).

(** The function selector.  Only [lock] is payable; the other entry
    points take no value. *)
Definition dispatch (m : Msg) : M unit :=
  match call m with
  | CallLock v id s a h t => lock (sender m) v id s a h t
  | CallWithdrawWithPreimage id p s1 s2 => withdrawWithPreimage id p s1 s2
  | CallResolveDispute id r s1 s2 => resolveDispute id r s1 s2
  | CallRefund id => refund id
  end.

End Functions.

(** [transfer] with the recipient's code run in place.  [depth] bounds
    the nesting of calls, as the EVM's call stack does: with none left
    the payment fails. *)
Fixpoint transfer (env : Env) (depth : nat) {struct depth}
    : address -> uint256 -> M unit :=
  match depth with
  | O => fun _ _ _ => inl TransferFailed
  | S d => fun to value s =>
      if balance s <? value then inl TransferFailed
      else match on_receive env to value with
           | None => inl TransferFailed
           | Some script =>
               inr (tt, reenter (dispatch (transfer env d) (block_timestamp env))
                                script (pay to value s))
           end
  end.

Definition max_depth : nat := 1024.

(** One transaction. *)
Definition transact (env : Env) (m : Msg) (s : State) : Outcome * State :=
  attempt (dispatch (transfer env max_depth) (block_timestamp env) m) s.

(** The states the contract can be in between transactions. *)
Inductive reachable : State -> Prop :=
| reachable_init : reachable init
| reachable_step env m s :
    reachable s -> reachable (snd (transact env m s)).

End Contract.

Arguments transfer : simpl never.

(** ** Auxiliary definitions for the proofs *)

(** The state in which a resolving function issues its payment: the
    guard is set and the trade already carries its final status. *)
Definition begin_payout (id : bytes32) (st : Status.t) (s : State) : State :=
  {| trades := <[id := with_status st (trades s !!! id)]> (trades s);
     entered := true; balance := balance s; effects := effects s |}.

(** What a resolving function does after the payment returned. *)
Definition finish (e : Event) (s : State) : State :=
  {| trades := trades s; entered := false; balance := balance s;
     effects := effects s ++ [Emit e] |}.

(** The state a successful [lock] leaves. *)
Definition locked_state (id : bytes32) (t : Trade) (s : State) : State :=
  {| trades := <[id := t]> (trades s); entered := entered s;
     balance := balance s + amount t;
     effects := effects s ++
       [Emit (Locked id (buyer t) (seller t) (amount t) (hashLock t) (timelock t))] |}.

(** The deposit a trade still holds. *)
Definition locked_amount (t : Trade) : Z :=
  match status t with Status.Locked => amount t | _ => 0 end.

Definition locked_total (m : gmap Z Trade) : Z :=
  map_fold (fun _ t acc => locked_amount t + acc) 0 m.

(** The contract holds at least what its locked trades deposited. *)
Definition solvent (s : State) : Prop :=
  locked_total (trades s) <= balance s /\
  map_Forall (fun _ t => 0 <= locked_amount t) (trades s).

(** [grows s s']: [s'] is [s] after zero or more successful [lock]s of
    trades that did not exist. *)
Inductive grows : State -> State -> Prop :=
| grows_refl s : grows s s
| grows_lock s id t s' :
    status (trades s !!! id) = Status.Uninitialized ->
    status t = Status.Locked ->
    0 < amount t ->
    grows (locked_state id t s) s' ->
    grows s s'.

Definition is_lock (c : Call) : bool :=
  match c with CallLock _ _ _ _ _ _ => true | _ => false end.

Definition is_locked_event (id : bytes32) (e : Effect) : Prop :=
  match e with Emit (Locked id' _ _ _ _ _) => id' = id | _ => False end.

Definition is_emit_locked (e : Effect) : Prop :=
  match e with Emit (Locked _ _ _ _ _ _) => True | _ => False end.

(** The final status, the payee and the event of each function. *)
Definition final_status (c : Call) : Status.t :=
  match c with
  | CallLock _ _ _ _ _ _ => Status.Locked
  | CallWithdrawWithPreimage _ _ _ _ | CallResolveDispute _ _ _ _ =>
      Status.Completed
  | CallRefund _ => Status.Refunded
  end.

Definition payee (c : Call) (t : Trade) : address :=
  match c with
  | CallLock _ _ _ _ _ _ => 0
  | CallWithdrawWithPreimage _ _ _ _ => seller t
  | CallResolveDispute _ r _ _ => r
  | CallRefund _ => buyer t
  end.

Definition receipt (c : Call) (t : Trade) : Event :=
  match c with
  | CallLock _ id _ _ _ _ =>
      Locked id (buyer t) (seller t) (amount t) (hashLock t) (timelock t)
  | CallWithdrawWithPreimage id _ _ _ =>
      Withdrawn id (seller t) "Preimage + MultiSig"
  | CallResolveDispute id r _ _ => Withdrawn id r "Arbitration"
  | CallRefund id => Refunded id (buyer t)
  end.

(** ** Runs of transactions *)

Section Runs.

Variable sha256 : bytes -> bytes32.
Variable keccak256 : bytes -> bytes32.
Variable ecrecover : bytes32 -> Z -> bytes32 -> bytes32 -> address.

(** The outcome of each transaction of a run, in order. *)
Fixpoint outcomes (txs : list (Env * Msg)) (s : State) : list (Msg * Outcome) :=
  match txs with
  | [] => []
  | (env, m) :: rest =>
      let r := transact sha256 keccak256 ecrecover env m s in
      (m, fst r) :: outcomes rest (snd r)
  end.

Fixpoint run (txs : list (Env * Msg)) (s : State) : State :=
  match txs with
  | [] => s
  | (env, m) :: rest =>
      run rest (snd (transact sha256 keccak256 ecrecover env m s))
  end.

End Runs.

Definition succeeded (o : Outcome) : bool :=
  match o with Success => true | Reverted _ => false end.

(** A transaction that paid out trade [id]: a successful call of one of
    the three resolving functions on it. *)
Definition is_payout (id : bytes32) (x : Msg * Outcome) : bool :=
  negb (is_lock (call (fst x))) && (target (call (fst x)) =? id) && succeeded (snd x).

Definition payouts (id : bytes32) (l : list (Msg * Outcome)) : nat :=
  length (filter (fun x => is_payout id x = true) l).

(** ** The state a payment is issued in, and what follows it *)

Section Payment.

Variable sha256 : bytes -> bytes32.
Variable keccak256 : bytes -> bytes32.
Variable ecrecover : bytes32 -> Z -> bytes32 -> bytes32 -> address.

(** How the contract answers a call made while a transaction is paying
    out: one level of the call stack is used up. *)
Definition reentrant_call (env : Env) : Msg -> M unit :=
  dispatch sha256 keccak256 ecrecover
    (transfer sha256 keccak256 ecrecover env (Nat.pred max_depth))
    (block_timestamp env).

(** The state in which trade [id] is paid out to [to]: status written,
    guard set, balance debited. *)
Definition paying (id : bytes32) (st : Status.t) (to : address) (s : State) : State :=
  pay to (amount (trades s !!! id)) (begin_payout id st s).

(** The state after the recipient's [script] ran and the event [e] was
    emitted. *)
Definition paid_out (env : Env) (id : bytes32) (st : Status.t) (to : address)
    (script : list Msg) (e : Event) (s : State) : State :=
  finish e (reenter (reentrant_call env) script (paying id st to s)).

End Payment.

Arguments paid_out : simpl never.

(** The payments among a list of effects. *)
Definition payments (l : list Effect) : list (address * uint256) :=
  omap (fun e => match e with Transfer a v => Some (a, v) | Emit _ => None end) l.

(** ** Vocabulary of the statements *)

(** [a] is one of the three parties of trade [t]. *)
Definition participant (t : Trade) (a : address) : Prop :=
  a = buyer t \/ a = seller t \/ a = arbiter t.

(** The unordered pair [{a, b}] is [{buyer, seller}]. *)
Definition buyer_and_seller (t : Trade) (a b : address) : Prop :=
  (a = buyer t /\ b = seller t) \/ (a = seller t /\ b = buyer t).




(** ** Concrete instances

    Stand-ins for the opaque primitives, used to run the contract on
    concrete inputs: the hash of a byte string is the sum of its bytes,
    and the precompile returns the [v] of the signature as the signer. *)

Definition toy_hash (bs : bytes) : bytes32 := fold_right Z.add 0 bs.
Definition toy_ecrecover (_ : bytes32) (v : Z) (_ _ : bytes32) : address := v.

(** The signature of signer [a]: [r = s = 0] and [v = a]. *)
Definition toy_sig (a : address) : bytes := repeat 0 64 ++ [a].


(** Every account accepts payment and never calls back. *)
Definition quiet (now : uint256) : Env :=
  {| block_timestamp := now; on_receive := fun _ _ => Some [] |}.

Definition toy_transact := transact toy_hash toy_hash toy_ecrecover.

Definition s_locked : State :=
  snd (toy_transact (quiet 1000)
         {| sender := 7; call := CallLock 5 1 8 9 (toy_hash (be_bytes 32 42)) 3600 |}
         init).

(** The locked trade of [s_locked], refunded after its timelock. *)
Definition s_refunded : State :=
  snd (toy_transact (quiet 5000) {| sender := 7; call := CallRefund 1 |} s_locked).

(** A trade whose seller and arbiter are the buyer. *)
Definition s_self : State :=
  snd (toy_transact (quiet 1000)
         {| sender := 7; call := CallLock 5 1 7 7 (toy_hash (be_bytes 32 42)) 3600 |}
         init).

(** An account that, while being paid, tries to refund trade 1 again and
    to lock it anew. *)
Definition greedy (now : uint256) : Env :=
  {| block_timestamp := now;
     on_receive := fun a _ =>
       Some [ {| sender := a; call := CallRefund 1 |};
              {| sender := a; call := CallLock 5 1 a a 0 10 |} ] |}.

(** An account that, while being paid, tries to refund trade 1 and to
    withdraw it with the preimage. *)
Definition reentering (now : uint256) : Env :=
  {| block_timestamp := now;
     on_receive := fun a _ =>
       Some [ {| sender := a; call := CallRefund 1 |};
              {| sender := a;
                 call := CallWithdrawWithPreimage 1 42 (toy_sig 7) (toy_sig 8) |} ] |}.

(** A transfer whose recipient looks the trade up and takes the payment
    only if the trade has status [st] by then. *)
Definition probe (id : bytes32) (st : Status.t) : address -> uint256 -> M unit :=
  fun to v s =>
    if Status.eqb (status (trades s !!! id)) st then inr (tt, pay to v s)
    else inl TransferFailed.

(** ** Vocabulary of the further properties *)

(** What [lock] stores: a trade that exists, with a positive amount, a
    non-zero seller and arbiter, and a timelock that fits a [uint256]. *)
Definition well_formed (t : Trade) : Prop :=
  status t <> Status.Uninitialized /\ 0 < amount t /\
  seller t <> 0 /\ arbiter t <> 0 /\ timelock t <= UINT256_MAX.

(** The event is the one a resolving function ends with. *)
Definition is_receipt (e : Event) : Prop :=
  match e with Locked _ _ _ _ _ _ => False | _ => True end.

(** The total deposited according to the [Locked] events of a log. *)
Fixpoint deposited (l : list Effect) : Z :=
  match l with
  | [] => 0
  | Emit (Locked _ _ _ v _ _) :: rest => v + deposited rest
  | _ :: rest => deposited rest
  end.

(** The total paid out according to the payments of a log. *)
Fixpoint paid_total (l : list Effect) : Z :=
  match l with
  | [] => 0
  | Transfer _ v :: rest => v + paid_total rest
  | _ :: rest => paid_total rest
  end.

(** The trade ids of the [Locked] events of a log, in order. *)
Fixpoint locked_ids (l : list Effect) : list Z :=
  match l with
  | [] => []
  | Emit (Locked id _ _ _ _ _) :: rest => id :: locked_ids rest
  | _ :: rest => locked_ids rest
  end.

(** The [Locked] event that describes trade [id] as stored. *)
Definition locked_event_of (id : bytes32) (t : Trade) : Effect :=
  Emit (Locked id (buyer t) (seller t) (amount t) (hashLock t) (timelock t)).

(** Every account refuses to be paid. *)
Definition stubborn (now : uint256) : Env :=
  {| block_timestamp := now; on_receive := fun _ _ => None |}.

(** The first deposit of the concrete runs. *)
Definition first_lock : Msg :=
  {| sender := 7; call := CallLock 5 1 8 9 (toy_hash (be_bytes 32 42)) 3600 |}.

(** * Properties *)

Example require_reasons :
  map reason [ZeroAmount; DuplicateTradeId; InvalidAddress; InvalidState;
              InvalidPreimage; MissingRequiredSignature; InvalidRecipient;
              InsufficientDistinctSignatures; TimelockNotExpired] =
  ["Amount must be greater than 0"; "Trade ID already exists";
   "Invalid addresses"; "Invalid status"; "Invalid preimage";
   "Missing required signatures from buyer and seller"; "Invalid recipient";
   "Need 2-of-3 signatures"; "Timelock not expired"]%string.
Proof. reflexivity. Qed.

Example s_locked_trade :
  trades s_locked !!! 1 =
  {| buyer := 7; seller := 8; arbiter := 9; amount := 5;
     hashLock := 42; timelock := 4600; status := Status.Locked |}.
Proof. vm_compute. reflexivity. Qed.

Example s_locked_withdraw :
  let r := toy_transact (quiet 1001)
             {| sender := 8; call := CallWithdrawWithPreimage 1 42 (toy_sig 7) (toy_sig 8) |} s_locked in
  fst r = Success /\ status (trades (snd r) !!! 1) = Status.Completed /\
  balance (snd r) = 0 /\
  effects (snd r) =
    [Emit (Locked 1 7 8 5 42 4600); Transfer 8 5;
     Emit (Withdrawn 1 8 "Preimage + MultiSig")].
Proof. vm_compute. repeat split; reflexivity. Qed.

(** ** Symbolic execution of the four functions *)

Ltac sol_unfold :=
  unfold nonReentrant, bind, require, read, set_status, write,
    emit, set_entered, credit, checked_add, ret, throw in *.

Lemma ECDSA_recover_eq ecrecover h sig (s : State) :
  ECDSA_recover ecrecover h sig s =
  match ECDSA_signer ecrecover h sig with
  | Some a => inr (a, s)
  | None => inl (ECDSA_revert ecrecover h sig)
  end.
Proof.
  unfold ECDSA_recover, ECDSA_signer, ECDSA_revert.
  destruct (ECDSA_tryRecover ecrecover h sig) as [[a []] arg]; reflexivity.
Qed.

Section Execution.

Variable sha256 : bytes -> bytes32.
Variable keccak256 : bytes -> bytes32.
Variable ecrecover : bytes32 -> Z -> bytes32 -> bytes32 -> address.

Variable tr : address -> uint256 -> M unit.
Variable ts : uint256.

Lemma lock_eq sd v id sl ar h lt s :
  lock ts sd v id sl ar h lt s =
  if negb (0 <? v) then inl ZeroAmount
  else if negb (Status.eqb (status (trades s !!! id)) Status.Uninitialized)
  then inl DuplicateTradeId
  else if negb (negb (sl =? 0) && negb (ar =? 0)) then inl InvalidAddress
  else if UINT256_MAX <? ts + lt then inl ArithmeticOverflow
  else inr (tt, locked_state id
              {| buyer := sd; seller := sl; arbiter := ar; amount := v;
                 hashLock := h; timelock := ts + lt;
                 status := Status.Locked |} s).
Proof.
  unfold lock. sol_unfold. simpl.
  destruct (0 <? v); simpl; [|done].
  destruct (Status.eqb _ _); simpl; [|done].
  destruct (negb (sl =? 0) && negb (ar =? 0)); simpl; [|done].
  destruct (UINT256_MAX <? ts + lt); simpl; [done|].
  unfold locked_state. simpl. by rewrite lookup_total_insert_eq.
Qed.

Lemma refund_eq id s :
  refund tr ts id s =
  let t := trades s !!! id in
  if entered s then inl ReentrancyGuardReentrantCall
  else if negb (Status.eqb (status t) Status.Locked) then inl InvalidState
  else if negb (timelock t <=? ts) then inl TimelockNotExpired
  else match tr (buyer t) (amount t) (begin_payout id Status.Refunded s) with
       | inl e => inl e
       | inr (_, s') =>
           inr (tt, finish (Refunded id (buyer (trades s' !!! id))) s')
       end.
Proof.
  unfold refund. sol_unfold. simpl.
  destruct (entered s); simpl; [done|].
  destruct (Status.eqb _ _); simpl; [|done].
  destruct (timelock _ <=? ts); simpl; [|done].
  rewrite lookup_total_insert_eq. simpl.
  unfold begin_payout.
  destruct (tr _ _ _) as [e|[[] s']]; done.
Qed.

Lemma withdrawWithPreimage_eq id p sig1 sig2 s :
  withdrawWithPreimage sha256 keccak256 ecrecover tr id p sig1 sig2 s =
  let t := trades s !!! id in
  let h := preimage_digest keccak256 id p in
  if entered s then inl ReentrancyGuardReentrantCall
  else if negb (Status.eqb (status t) Status.Locked) then inl InvalidState
  else if negb (sha256 (be_bytes 32 p) =? hashLock t) then inl InvalidPreimage
  else match ECDSA_signer ecrecover h sig1, ECDSA_signer ecrecover h sig2 with
       | Some signer1, Some signer2 =>
           if negb (((signer1 =? buyer t) || (signer2 =? buyer t)) &&
                    ((signer1 =? seller t) || (signer2 =? seller t)))
           then inl MissingRequiredSignature
           else match tr (seller t) (amount t)
                         (begin_payout id Status.Completed s) with
                | inl e => inl e
                | inr (_, s') =>
                    inr (tt, finish (Withdrawn id (seller (trades s' !!! id))
                                       "Preimage + MultiSig") s')
                end
       | _, _ => inl (signature_error ecrecover h sig1 sig2)
       end.
Proof.
  unfold withdrawWithPreimage. sol_unfold. simpl.
  destruct (entered s); simpl; [done|].
  destruct (Status.eqb _ _); simpl; [|done].
  destruct (sha256 _ =? _); simpl; [|done].
  unfold signature_error. rewrite !ECDSA_recover_eq.
  destruct (ECDSA_signer _ _ sig1) as [a|]; simpl; [|done].
  rewrite ?ECDSA_recover_eq.
  destruct (ECDSA_signer _ _ sig2) as [b|]; simpl; [|done].
  destruct (_ && _); simpl; [|done].
  rewrite lookup_total_insert_eq. simpl.
  unfold begin_payout.
  destruct (tr _ _ _) as [e|[[] s']]; done.
Qed.

Lemma resolveDispute_eq id r sig1 sig2 s :
  resolveDispute keccak256 ecrecover tr id r sig1 sig2 s =
  let t := trades s !!! id in
  let h := dispute_digest keccak256 id r in
  if entered s then inl ReentrancyGuardReentrantCall
  else if negb (Status.eqb (status t) Status.Locked) then inl InvalidState
  else if negb ((r =? buyer t) || (r =? seller t)) then inl InvalidRecipient
  else match ECDSA_signer ecrecover h sig1, ECDSA_signer ecrecover h sig2 with
       | Some signer1, Some signer2 =>
           if negb (2 <=? count_signers [signer1; signer2]
                            [buyer t; seller t; arbiter t] 0 0)
           then inl InsufficientDistinctSignatures
           else match tr r (amount t) (begin_payout id Status.Completed s) with
                | inl e => inl e
                | inr (_, s') =>
                    inr (tt, finish (Withdrawn id r "Arbitration") s')
                end
       | _, _ => inl (signature_error ecrecover h sig1 sig2)
       end.
Proof.
  unfold resolveDispute. sol_unfold. simpl.
  destruct (entered s); simpl; [done|].
  destruct (Status.eqb _ _); simpl; [|done].
  destruct (_ || _); simpl; [|done].
  unfold signature_error. rewrite !ECDSA_recover_eq.
  destruct (ECDSA_signer _ _ sig1) as [a|]; simpl; [|done].
  rewrite ?ECDSA_recover_eq.
  destruct (ECDSA_signer _ _ sig2) as [b|]; simpl; [|done].
  destruct (2 <=? _); simpl; [|done].
  rewrite lookup_total_insert_eq. simpl.
  unfold begin_payout.
  destruct (tr _ _ _) as [e|[[] s']]; done.
Qed.

(** A resolving call that returns found the guard clear and the trade
    [Locked], and made its one transfer after the status write. *)
Lemma resolving_eq m s u s' :
  is_lock (call m) = false ->
  dispatch sha256 keccak256 ecrecover tr ts m s = inr (u, s') ->
  let id := target (call m) in
  let t := trades s !!! id in
  let st := final_status (call m) in
  entered s = false /\ status t = Status.Locked /\
  exists s_mid,
    tr (payee (call m) t) (amount t) (begin_payout id st s) = inr (tt, s_mid) /\
    s' = finish (receipt (call m) (trades s_mid !!! id)) s_mid.
Proof.
  unfold dispatch.
  destruct (call m) as [|id p s1 s2|id r s1 s2|id]; [done|..]; intros _;
    cbn [target final_status payee receipt]; cbn zeta.
  - rewrite withdrawWithPreimage_eq. cbn zeta.
    destruct (entered s); [done|].
    destruct (status (trades s !!! id)) eqn:Hst; try done.
    cbn [Status.eqb negb].
    destruct (negb _); [done|].
    destruct (ECDSA_signer _ _ s1); [|done].
    destruct (ECDSA_signer _ _ s2); [|done].
    destruct (negb _); [done|].
    destruct (tr _ _ _) as [e|[[] s_mid]] eqn:Htr; [done|].
    intros [= <- <-]. do 2 (split; [done|]). by exists s_mid.
  - rewrite resolveDispute_eq. cbn zeta.
    destruct (entered s); [done|].
    destruct (status (trades s !!! id)) eqn:Hst; try done.
    cbn [Status.eqb negb].
    destruct (negb _); [done|].
    destruct (ECDSA_signer _ _ s1); [|done].
    destruct (ECDSA_signer _ _ s2); [|done].
    destruct (negb _); [done|].
    destruct (tr _ _ _) as [e|[[] s_mid]] eqn:Htr; [done|].
    intros [= <- <-]. do 2 (split; [done|]). by exists s_mid.
  - rewrite refund_eq. cbn zeta.
    destruct (entered s); [done|].
    destruct (status (trades s !!! id)) eqn:Hst; try done.
    cbn [Status.eqb negb].
    destruct (negb _); [done|].
    destruct (tr _ _ _) as [e|[[] s_mid]] eqn:Htr; [done|].
    intros [= <- <-]. do 2 (split; [done|]). by exists s_mid.
Qed.

End Execution.

(** ** The escrowed total *)

Lemma locked_total_insert (m : gmap Z Trade) id t :
  locked_total (<[id := t]> m) =
  locked_total m - locked_amount (m !!! id) + locked_amount t.
Proof.
  unfold locked_total.
  destruct (m !! id) as [x|] eqn:Hx.
  - rewrite (lookup_total_correct _ _ _ Hx).
    rewrite (map_fold_delete_L _ _ id x m); [|intros; lia|done].
    rewrite <- insert_delete_eq.
    rewrite map_fold_insert_L; [lia|intros; lia|apply lookup_delete_eq].
  - rewrite lookup_total_alt, Hx. simpl.
    rewrite map_fold_insert_L; [|intros; lia|done].
    change (locked_amount zero_trade) with 0. lia.
Qed.

Lemma locked_total_nonneg (m : gmap Z Trade) :
  map_Forall (fun _ t => 0 <= locked_amount t) m -> 0 <= locked_total m.
Proof.
  unfold locked_total.
  induction m as [|i x m Hi Hfold IH] using map_first_key_ind.
  - intros _. by rewrite map_fold_empty.
  - intros H. rewrite map_fold_insert_first_key by done.
    apply map_Forall_insert in H as [Hx Hm]; [|done].
    specialize (IH Hm). lia.
Qed.

Lemma locked_amount_le_total (m : gmap Z Trade) id :
  map_Forall (fun _ t => 0 <= locked_amount t) m ->
  locked_amount (m !!! id) <= locked_total m.
Proof.
  intros H. destruct (m !! id) as [x|] eqn:Hx.
  - rewrite (lookup_total_correct _ _ _ Hx).
    unfold locked_total.
    rewrite (map_fold_delete_L _ _ id x m); [|intros; lia|done].
    assert (0 <= locked_total (delete id m)); [|unfold locked_total in *; lia].
    apply locked_total_nonneg.
    intros j y Hj. apply lookup_delete_Some in Hj as [_ Hj]. by apply (H j).
  - rewrite lookup_total_alt, Hx. simpl.
    apply locked_total_nonneg in H.
    change (locked_amount zero_trade) with 0. lia.
Qed.

Lemma nonneg_insert (m : gmap Z Trade) id t :
  0 <= locked_amount t ->
  map_Forall (fun _ t => 0 <= locked_amount t) m ->
  map_Forall (fun _ t => 0 <= locked_amount t) (<[id := t]> m).
Proof. intros Ht Hm. by apply map_Forall_insert_2. Qed.

Lemma solvent_init : solvent init.
Proof.
  split; simpl.
  - unfold locked_total. by rewrite map_fold_empty.
  - apply map_Forall_empty.
Qed.

Lemma solvent_locked_state id t s :
  status (trades s !!! id) = Status.Uninitialized ->
  status t = Status.Locked -> 0 < amount t ->
  solvent s -> solvent (locked_state id t s).
Proof.
  intros Hu Hl Hpos [Hle Hnn]. split; simpl.
  - rewrite locked_total_insert. unfold locked_amount. rewrite Hu, Hl. lia.
  - apply nonneg_insert; [|done]. unfold locked_amount. rewrite Hl. lia.
Qed.

(** Paying out a locked trade in full keeps the contract solvent, and the
    balance covers the payment. *)
Lemma solvent_payout id st to s :
  status (trades s !!! id) = Status.Locked ->
  Status.terminal st = true ->
  solvent s ->
  amount (trades s !!! id) <= balance s /\
  solvent (pay to (amount (trades s !!! id)) (begin_payout id st s)).
Proof.
  intros Hl Hst [Hle Hnn].
  pose proof (locked_amount_le_total (trades s) id Hnn) as Hid.
  unfold locked_amount in Hid at 1. rewrite Hl in Hid.
  split; [lia|]. split; simpl.
  - rewrite locked_total_insert.
    assert (locked_amount (trades s !!! id) = amount (trades s !!! id)) as ->
      by (unfold locked_amount; by rewrite Hl).
    assert (locked_amount (with_status st (trades s !!! id)) = 0) as ->
      by (unfold locked_amount; by destruct st).
    lia.
  - apply nonneg_insert; [|done]. unfold locked_amount. by destruct st.
Qed.

(** ** States that only grow by new trades *)

Lemma grows_trans s1 s2 s3 : grows s1 s2 -> grows s2 s3 -> grows s1 s3.
Proof.
  induction 1 as [|s id t s' Hu Hl Hp _ IH]; [done|].
  intros H3. eapply grows_lock; eauto.
Qed.

Lemma grows_one s id t :
  status (trades s !!! id) = Status.Uninitialized ->
  status t = Status.Locked -> 0 < amount t ->
  grows s (locked_state id t s).
Proof. intros. eapply grows_lock; eauto using grows_refl. Qed.

Lemma grows_entered s s' : grows s s' -> entered s' = entered s.
Proof. induction 1; [done|]. by rewrite IHgrows. Qed.

Lemma grows_balance s s' : grows s s' -> balance s <= balance s'.
Proof. induction 1; [lia|]. simpl in *. lia. Qed.

Lemma grows_solvent s s' : grows s s' -> solvent s -> solvent s'.
Proof. induction 1; [done|]. eauto using solvent_locked_state. Qed.

(** An existing trade is never touched; a missing one may get locked, and
    then its [Locked] event is among the new effects, which are [Locked]
    events only. *)
Lemma grows_spec s s' :
  grows s s' ->
  exists evs,
    effects s' = effects s ++ evs /\
    Forall is_emit_locked evs /\
    forall id,
      trades s' !!! id = trades s !!! id \/
      (status (trades s !!! id) = Status.Uninitialized /\
       status (trades s' !!! id) = Status.Locked /\
       Exists (is_locked_event id) evs).
Proof.
  induction 1 as [s|s id t s' Hu Hl Hp _ (evs & He & Hall & Hid)].
  - exists []. rewrite app_nil_r. repeat split; [constructor|]. by left.
  - simpl in He.
    exists (Emit (Locked id (buyer t) (seller t) (amount t) (hashLock t)
                   (timelock t)) :: evs).
    split; [by rewrite He, <- app_assoc|].
    split; [by constructor|].
    intros j. destruct (Hid j) as [Heq|(Hu' & Hl' & Hex)].
    + simpl in Heq. destruct (decide (id = j)) as [->|Hne].
      * rewrite lookup_total_insert_eq in Heq. right.
        rewrite Heq. repeat split; [done..|]. by left.
      * rewrite lookup_total_insert_ne in Heq by done. by left.
    + simpl in Hu'. destruct (decide (id = j)) as [->|Hne].
      * rewrite lookup_total_insert_eq in Hu'. congruence.
      * rewrite lookup_total_insert_ne in Hu' by done. right.
        repeat split; [done..|]. by right.
Qed.

Lemma grows_keep s s' id :
  grows s s' ->
  status (trades s !!! id) <> Status.Uninitialized ->
  trades s' !!! id = trades s !!! id.
Proof.
  intros H Hne. destruct (grows_spec _ _ H) as (evs & _ & _ & Hid).
  destruct (Hid id) as [|[? _]]; [done|contradiction].
Qed.

(** ** Calls made while the guard is set *)

Section Reentrancy.

Variable sha256 : bytes -> bytes32.
Variable keccak256 : bytes -> bytes32.
Variable ecrecover : bytes32 -> Z -> bytes32 -> bytes32 -> address.
Variable tr : address -> uint256 -> M unit.
Variable ts : uint256.

Let exec := dispatch sha256 keccak256 ecrecover tr ts.

Lemma guarded_call_reverts m s :
  entered s = true -> is_lock (call m) = false ->
  exec m s = inl ReentrancyGuardReentrantCall.
Proof using Type.
  intros He Hl. unfold exec, dispatch.
  destruct (call m); try discriminate.
  - by rewrite withdrawWithPreimage_eq, He.
  - by rewrite resolveDispute_eq, He.
  - by rewrite refund_eq, He.
Qed.

(** A successful [lock], whoever makes it, adds one trade that did not
    exist. *)
Lemma lock_success sd v id sl ar h lt s u s' :
  lock ts sd v id sl ar h lt s = inr (u, s') ->
  0 < v /\ status (trades s !!! id) = Status.Uninitialized /\
  sl <> 0 /\ ar <> 0 /\ ts + lt <= UINT256_MAX /\
  s' = locked_state id
         {| buyer := sd; seller := sl; arbiter := ar; amount := v;
            hashLock := h; timelock := ts + lt; status := Status.Locked |} s.
Proof using Type.
  rewrite lock_eq.
  destruct (0 <? v) eqn:Hv; simpl; [|done].
  destruct (status (trades s !!! id)) eqn:Hst; simpl; try done.
  destruct (sl =? 0) eqn:Hsl; simpl; [done|].
  destruct (ar =? 0) eqn:Har; simpl; [done|].
  destruct (UINT256_MAX <? ts + lt) eqn:Hov; [done|].
  apply Z.ltb_lt in Hv. apply Z.eqb_neq in Hsl, Har. apply Z.ltb_ge in Hov.
  intros [= <-]. by repeat split.
Qed.

Lemma guarded_call m s :
  entered s = true ->
  let r := attempt (exec m) s in
  grows s (snd r) /\
  (fst r = Success ->
   is_lock (call m) = true /\
   status (trades s !!! target (call m)) = Status.Uninitialized).
Proof using Type.
  intros He. destruct (is_lock (call m)) eqn:Hl.
  - unfold attempt, exec, dispatch.
    destruct (call m) as [v id sl ar h lt| | |]; try discriminate. simpl.
    destruct (lock _ _ _ _ _ _ _ _ _) as [e|[[] s']] eqn:Hlock; simpl.
    + split; [apply grows_refl|done].
    + apply lock_success in Hlock as (Hv & Hu & _ & _ & _ & ->).
      split; [by apply grows_one|done].
  - unfold attempt. rewrite guarded_call_reverts by done. simpl.
    split; [apply grows_refl|done].
Qed.

Lemma reenter_grows script s :
  entered s = true -> grows s (reenter exec script s).
Proof using Type.
  revert s. induction script as [|m script IH]; intros s He; simpl.
  - apply grows_refl.
  - destruct (guarded_call m s He) as [Hg _].
    eapply grows_trans; [exact Hg|]. apply IH.
    by rewrite (grows_entered _ _ Hg).
Qed.

(** Every call of the script starts in a state grown from [s], with the
    guard still set, and can only succeed as a [lock] of a new trade. *)
Lemma reentries_spec script s :
  entered s = true ->
  Forall (fun '(st, m, out) =>
            grows s st /\ entered st = true /\
            (out = Success ->
             is_lock (call m) = true /\
             status (trades st !!! target (call m)) = Status.Uninitialized))
         (reentries exec script s).
Proof using Type.
  revert s. induction script as [|m script IH]; intros s He; simpl.
  - constructor.
  - destruct (guarded_call m s He) as [Hg Hs].
    constructor.
    + split; [apply grows_refl|]. split; [done|exact Hs].
    + assert (entered (snd (attempt (exec m) s)) = true) as He'
        by (by rewrite (grows_entered _ _ Hg)).
      specialize (IH _ He').
      eapply Forall_impl; [exact IH|].
      intros [[st m'] out] (Hg' & ? & ?).
      split; [by eapply grows_trans|done].
Qed.

End Reentrancy.

Lemma transfer_S env sha256 keccak256 ecrecover d to v s :
  transfer sha256 keccak256 ecrecover env (S d) to v s =
  if balance s <? v then inl TransferFailed
  else match on_receive env to v with
       | None => inl TransferFailed
       | Some script =>
           inr (tt, reenter (dispatch sha256 keccak256 ecrecover
                               (transfer sha256 keccak256 ecrecover env d)
                               (block_timestamp env))
                            script (pay to v s))
       end.
Proof. reflexivity. Qed.

(** A payment made with the guard set returns a state grown from the one
    it was issued in. *)
Lemma transfer_grows env sha256 keccak256 ecrecover d to v s u s' :
  entered s = true ->
  transfer sha256 keccak256 ecrecover env d to v s = inr (u, s') ->
  v <= balance s /\ grows (pay to v s) s'.
Proof.
  intros He. destruct d as [|d]; [done|]. rewrite transfer_S.
  destruct (balance s <? v) eqn:Hb; [done|].
  destruct (on_receive env to v) as [script|]; [|done].
  intros [= <- <-]. split; [lia|]. by apply reenter_grows.
Qed.

(** ** Successful calls between transactions *)

Section Steps.

Variable sha256 : bytes -> bytes32.
Variable keccak256 : bytes -> bytes32.
Variable ecrecover : bytes32 -> Z -> bytes32 -> bytes32 -> address.

Let transfer' := transfer sha256 keccak256 ecrecover.
Let dispatch' env d :=
  dispatch sha256 keccak256 ecrecover (transfer' env d) (block_timestamp env).

(** The payment of a resolving function: covered by the balance, made
    to an account that accepts it, and leaving the trade as it was
    written just before. *)
Lemma payout_spec env d id st to v s u s_mid :
  st <> Status.Uninitialized ->
  transfer' env d to v (begin_payout id st s) = inr (u, s_mid) ->
  v <= balance s /\
  grows (pay to v (begin_payout id st s)) s_mid /\
  entered s_mid = true /\
  trades s_mid !!! id = with_status st (trades s !!! id).
Proof using Type.
  intros Hst Htr.
  apply transfer_grows in Htr as [Hb Hg]; [|done].
  split; [done|]. split; [done|]. split.
  - by rewrite (grows_entered _ _ Hg).
  - rewrite (grows_keep _ _ id Hg); simpl; rewrite lookup_total_insert_eq; done.
Qed.

Lemma resolving_success env d m s u s' :
  is_lock (call m) = false ->
  dispatch' env d m s = inr (u, s') ->
  let id := target (call m) in
  let t := trades s !!! id in
  let st := final_status (call m) in
  entered s = false /\ status t = Status.Locked /\
  exists s_mid,
    transfer' env d (payee (call m) t) (amount t) (begin_payout id st s)
      = inr (tt, s_mid) /\
    s' = finish (receipt (call m) t) s_mid.
Proof using Type.
  unfold dispatch', dispatch.
  destruct (call m) as [|id p s1 s2|id r s1 s2|id]; [done|..]; intros _; simpl.
  - rewrite withdrawWithPreimage_eq. simpl.
    destruct (entered s); [done|].
    destruct (status (trades s !!! id)) eqn:Hst; try done. simpl.
    destruct (sha256 _ =? _); [|done]. simpl.
    destruct (ECDSA_signer _ _ s1); [|done].
    destruct (ECDSA_signer _ _ s2); [|done].
    destruct (negb _); [done|].
    destruct (transfer' _ _ _ _ _) as [e|[[] s_mid]] eqn:Htr; [done|].
    intros [= <- <-]. do 2 (split; [done|]). exists s_mid. split; [done|].
    apply payout_spec in Htr as (_ & _ & _ & ->); done.
  - rewrite resolveDispute_eq. simpl.
    destruct (entered s); [done|].
    destruct (status (trades s !!! id)) eqn:Hst; try done. simpl.
    destruct (_ || _); [|done]. simpl.
    destruct (ECDSA_signer _ _ s1); [|done].
    destruct (ECDSA_signer _ _ s2); [|done].
    destruct (negb _); [done|].
    destruct (transfer' _ _ _ _ _) as [e|[[] s_mid]] eqn:Htr; [done|].
    intros [= <- <-]. do 2 (split; [done|]). by exists s_mid.
  - rewrite refund_eq. simpl.
    destruct (entered s); [done|].
    destruct (status (trades s !!! id)) eqn:Hst; try done. simpl.
    destruct (timelock _ <=? _); [|done]. simpl.
    destruct (transfer' _ _ _ _ _) as [e|[[] s_mid]] eqn:Htr; [done|].
    intros [= <- <-]. do 2 (split; [done|]). exists s_mid. split; [done|].
    apply payout_spec in Htr as (_ & _ & _ & ->); done.
Qed.

(** What one successful call does: the guard is back, the contract
    stays solvent, every trade but the target is untouched or newly
    locked, and the new effects are one payment (for a resolving call)
    between [Locked] events and the call's own event. *)
Lemma success_step env d m s u s' :
  entered s = false ->
  dispatch' env d m s = inr (u, s') ->
  let id := target (call m) in
  let t := trades s !!! id in
  entered s' = false /\
  (solvent s -> solvent s') /\
  exists pre evs,
    effects s' = effects s ++ pre ++ evs ++ [Emit (receipt (call m) (trades s' !!! id))] /\
    Forall is_emit_locked evs /\
    pre = (if is_lock (call m) then []
           else [Transfer (payee (call m) t) (amount t)]) /\
    status t = (if is_lock (call m) then Status.Uninitialized else Status.Locked) /\
    trades s' !!! id = (if is_lock (call m) then trades s' !!! id
                        else with_status (final_status (call m)) t) /\
    status (trades s' !!! id) = final_status (call m) /\
    forall j, j <> id ->
      trades s' !!! j = trades s !!! j \/
      (status (trades s !!! j) = Status.Uninitialized /\
       status (trades s' !!! j) = Status.Locked /\
       Exists (is_locked_event j) evs).
Proof using Type.
  intros He Hd. destruct (is_lock (call m)) eqn:Hl.
  - unfold dispatch', dispatch in Hd.
    destruct (call m) as [v id sl ar h lt| | |]; try discriminate. simpl.
    apply lock_success in Hd as (Hv & Hu & _ & _ & _ & ->). simpl.
    split; [done|]. split; [by apply solvent_locked_state|].
    exists [], []. simpl. rewrite lookup_total_insert_eq. simpl.
    repeat split; try done.
    intros j Hj. left. by rewrite lookup_total_insert_ne.
  - apply resolving_success in Hd as (_ & Hst & s_mid & Htr & ->); [|done].
    assert (final_status (call m) <> Status.Uninitialized) as Hfin
      by (by destruct (call m)).
    assert (Status.terminal (final_status (call m)) = true) as Hterm
      by (by destruct (call m)).
    pose proof Htr as Htr'.
    apply payout_spec in Htr' as (Hb & Hg & He' & Hid); [|done].
    simpl. split; [done|]. split.
    { intros Hsol. eapply (solvent_payout _ _ (payee (call m) _)) in Hsol as [_ Hsol]; [|done..].
      apply (grows_solvent _ _ Hg) in Hsol. exact Hsol. }
    destruct (grows_spec _ _ Hg) as (evs & Hev & Hall & Hj). simpl in Hev.
    exists [Transfer (payee (call m) (trades s !!! target (call m)))
              (amount (trades s !!! target (call m)))], evs.
    rewrite Hid. split.
    { rewrite Hev. rewrite <- !app_assoc. simpl.
      by destruct (call m). }
    repeat split; try done.
    intros j Hne. destruct (Hj j) as [Heq|(Hu & Hl' & Hex)]; simpl in *.
    + left. by rewrite lookup_total_insert_ne in Heq.
    + right. by rewrite lookup_total_insert_ne in Hu.
Qed.

End Steps.

(** ** Transactions *)

Section Transactions.

Variable sha256 : bytes -> bytes32.
Variable keccak256 : bytes -> bytes32.
Variable ecrecover : bytes32 -> Z -> bytes32 -> bytes32 -> address.

Let transact' := transact sha256 keccak256 ecrecover.
Let reachable' := reachable sha256 keccak256 ecrecover.

Lemma transact_reverted env m s e :
  fst (transact' env m s) = Reverted e -> snd (transact' env m s) = s.
Proof using Type.
  unfold transact', transact, attempt.
  by destruct (dispatch _ _ _ _ _ _ _) as [?|[[] ?]].
Qed.

Lemma transact_success env m s :
  fst (transact' env m s) = Success ->
  dispatch sha256 keccak256 ecrecover
    (transfer sha256 keccak256 ecrecover env max_depth)
    (block_timestamp env) m s = inr (tt, snd (transact' env m s)).
Proof using Type.
  unfold transact', transact, attempt.
  by destruct (dispatch _ _ _ _ _ _ _) as [?|[[] ?]].
Qed.

Lemma transact_cases env m s :
  (exists e, transact' env m s = (Reverted e, s)) \/
  (exists s', transact' env m s = (Success, s') /\
     dispatch sha256 keccak256 ecrecover
       (transfer sha256 keccak256 ecrecover env max_depth)
       (block_timestamp env) m s = inr (tt, s')).
Proof using Type.
  unfold transact', transact, attempt.
  destruct (dispatch _ _ _ _ _ _ _) as [e|[[] s']]; eauto.
Qed.

(** Between transactions the guard is clear and the contract solvent. *)
Lemma reachable_inv s : reachable' s -> entered s = false /\ solvent s.
Proof using Type.
  induction 1 as [|env m s _ [He Hs]]; [split; [done|apply solvent_init]|].
  destruct (transact_cases env m s) as [[e Hr]|(s' & Hr & Hd)];
    unfold transact' in Hr; rewrite Hr; simpl; [done|].
  apply success_step in Hd as (He' & Hs' & _); auto.
Qed.

Lemma reachable_run txs s : reachable' s -> reachable' (run sha256 keccak256 ecrecover txs s).
Proof using Type.
  revert s. induction txs as [|[env m] txs IH]; intros s Hs; simpl; [done|].
  apply IH. by constructor.
Qed.

(** A resolving function called on a trade that is not [Locked]. *)
Lemma resolving_not_locked env m s :
  entered s = false ->
  is_lock (call m) = false ->
  status (trades s !!! target (call m)) <> Status.Locked ->
  transact' env m s = (Reverted InvalidState, s).
Proof using Type.
  intros He Hl Hst. unfold transact', transact, attempt, dispatch.
  destruct (call m) as [|id p s1 s2|id r s1 s2|id]; [done|..]; simpl in *.
  - rewrite withdrawWithPreimage_eq. simpl. rewrite He.
    by destruct (status (trades s !!! id)).
  - rewrite resolveDispute_eq. simpl. rewrite He.
    by destruct (status (trades s !!! id)).
  - rewrite refund_eq. simpl. rewrite He.
    by destruct (status (trades s !!! id)).
Qed.

(** The status moves a single transaction can make. *)
Lemma transact_transitions env m s j :
  entered s = false ->
  let r := transact' env m s in
  trades (snd r) !!! j = trades s !!! j \/
  (status (trades s !!! j) = Status.Uninitialized /\
   status (trades (snd r) !!! j) = Status.Locked /\
   exists evs, effects (snd r) = effects s ++ evs /\
               Exists (is_locked_event j) evs) \/
  (j = target (call m) /\ fst r = Success /\ is_lock (call m) = false /\
   status (trades s !!! j) = Status.Locked /\
   trades (snd r) !!! j = with_status (final_status (call m)) (trades s !!! j)).
Proof using Type.
  intros He. simpl.
  destruct (transact_cases env m s) as [[e Hr]|(s' & Hr & Hd)];
    rewrite Hr; simpl; [by left|].
  apply success_step in Hd
    as (_ & _ & pre & evs & Hev & _ & _ & Hst & Hid & Hfin & Hj); [|done].
  destruct (decide (j = target (call m))) as [->|Hne].
  - destruct (is_lock (call m)) eqn:Hl.
    + right; left. split; [done|]. split; [by destruct (call m)|].
      eexists. split; [exact Hev|].
      apply Exists_app; right. apply Exists_app; right.
      constructor. by destruct (call m).
    + right; right. done.
  - destruct (Hj j Hne) as [Heq|(Hu & Hl & Hex)]; [by left|].
    right; left. do 2 (split; [done|]).
    eexists. split; [exact Hev|].
    apply Exists_app; right. apply Exists_app; by left.
Qed.

Lemma payments_locked_events evs :
  Forall is_emit_locked evs -> payments evs = [].
Proof using Type.
  induction 1 as [|e evs He _ IH]; [done|].
  by destruct e as [[]|].
Qed.

(** A transaction makes one payment, of the trade's full amount, when it
    is a successful resolving call, and none otherwise. *)
Lemma transact_payments env m s :
  entered s = false ->
  let r := transact' env m s in
  let t := trades s !!! target (call m) in
  exists new,
    effects (snd r) = effects s ++ new /\
    payments new =
      if negb (is_lock (call m)) && succeeded (fst r)
      then [(payee (call m) t, amount t)] else [].
Proof using Type.
  intros He. cbn zeta.
  destruct (transact_cases env m s) as [[e Hr]|(s' & Hr & Hd)]; rewrite Hr; simpl.
  - exists []. rewrite app_nil_r, andb_false_r. done.
  - apply success_step in Hd
      as (_ & _ & pre & evs & Hev & Hall & Hpre & _); [|done].
    exists (pre ++ evs ++ [Emit (receipt (call m) (trades s' !!! target (call m)))]).
    split; [exact Hev|]. rewrite andb_true_r.
    unfold payments. rewrite !omap_app.
    fold (payments evs). rewrite (payments_locked_events evs Hall).
    rewrite Hpre. by destruct (is_lock (call m)).
Qed.

(** Along any run a trade is paid out at most once, and never once it
    is [Completed] or [Refunded]. *)
Lemma payouts_bound txs : forall s j,
  reachable' s ->
  (payouts j (outcomes sha256 keccak256 ecrecover txs s) <= 1)%nat /\
  (Status.terminal (status (trades s !!! j)) = true ->
   payouts j (outcomes sha256 keccak256 ecrecover txs s) = 0%nat).
Proof using Type.
  induction txs as [|[env m] txs IH]; intros s j Hs; simpl.
  - unfold payouts. simpl. split; [lia|done].
  - pose proof (reachable_inv _ Hs) as [He _].
    assert (reachable' (snd (transact' env m s))) as Hs' by (by constructor).
    destruct (IH _ j Hs') as [IH1 IH2].
    pose proof (transact_transitions env m s j He) as Htr. simpl in Htr.
    fold transact' in IH1, IH2 |- *.
    unfold payouts in *. rewrite filter_cons.
    destruct (decide (is_payout j (m, fst (transact' env m s)) = true)) as [Hp|Hp].
    + unfold is_payout in Hp. simpl in Hp.
      apply andb_prop in Hp as [Hp Hsucc]. apply andb_prop in Hp as [Hl Hj].
      apply negb_true_iff in Hl. apply Z.eqb_eq in Hj.
      destruct (fst (transact' env m s)) eqn:Hout; [|done].
      apply transact_success in Hout.
      apply success_step in Hout
        as (_ & _ & _ & _ & _ & _ & _ & Hst & _ & Hfin & _); [|done].
      rewrite Hl, Hj in Hst. rewrite Hj in Hfin.
      simpl. rewrite IH2; [|fold transact'; rewrite Hfin; by destruct (call m)].
      split; [lia|]. by rewrite Hst.
    + split; [done|]. intros Hterm. apply IH2.
      destruct Htr as [->|[(Hu & _)|(_ & _ & _ & Hl & _)]]; [done|..].
      * by rewrite Hu in Hterm.
      * by rewrite Hl in Hterm.
Qed.

End Transactions.

(** ** The signature count *)

Lemma scan_participants_spec signer ps v l :
  scan_participants signer ps v l =
  if existsb (Z.eqb signer) ps && negb (signer =? l)
  then (v + 1, signer) else (v, l).
Proof.
  induction ps as [|p ps IH]; simpl; [done|].
  rewrite IH. destruct (signer =? p); simpl; [|done].
  destruct (signer =? l); simpl; [|done]. by rewrite andb_false_r.
Qed.

Lemma count_signers_cons sg rest ps v l :
  count_signers (sg :: rest) ps v l =
  count_signers rest ps (fst (scan_participants sg ps v l))
                        (snd (scan_participants sg ps v l)).
Proof. cbv [count_signers]. by destruct (scan_participants sg ps v l). Qed.

Lemma count_signers_nil ps v l : count_signers [] ps v l = v.
Proof. reflexivity. Qed.

Lemma existsb_participants t a :
  existsb (Z.eqb a) [buyer t; seller t; arbiter t] = true <-> participant t a.
Proof.
  unfold participant. simpl.
  rewrite orb_false_r, !orb_true_iff, !Z.eqb_eq. tauto.
Qed.

(** Two recovered signers reach the threshold exactly when they are two
    different parties of the trade. *)
Lemma count_signers_threshold t a b :
  a <> 0 ->
  (2 <=? count_signers [a; b] [buyer t; seller t; arbiter t] 0 0) = true <->
  a <> b /\ participant t a /\ participant t b.
Proof.
  intros Ha. rewrite <- !existsb_participants.
  set (ps := [buyer t; seller t; arbiter t]).
  rewrite !count_signers_cons, count_signers_nil.
  rewrite (scan_participants_spec a).
  assert ((a =? 0) = false) as -> by (by apply Z.eqb_neq).
  destruct (existsb (Z.eqb a) ps) eqn:Hpa; cbn [andb negb fst snd].
  - rewrite scan_participants_spec.
    destruct (existsb (Z.eqb b) ps) eqn:Hpb; cbn [andb negb fst snd].
    + destruct (Z.eqb_spec b a) as [->|Hne]; cbn [negb fst snd].
      * split; [done|]. by intros [? _].
      * split; [|done]. intros _. split; [congruence|done].
    + split; [done|]. by intros (_ & _ & ?).
  - rewrite scan_participants_spec.
    destruct (existsb (Z.eqb b) ps && _); cbn [fst snd]; split; try done;
      by intros (_ & ? & _).
Qed.

Lemma tryRecover_nonzero ecrecover h sig a :
  ECDSA_signer ecrecover h sig = Some a -> a <> 0.
Proof.
  unfold ECDSA_signer, ECDSA_tryRecover.
  destruct (_ =? 65); [|done].
  destruct (HALF_ORDER <? _); [done|].
  destruct (Z.eqb_spec (ecrecover h (nth 64 sig 0) (be_value (firstn 32 sig))
                          (be_value (firstn 32 (skipn 32 sig)))) 0); [done|].
  by intros [= <-].
Qed.

(** ** The packed encodings *)







(** ** The outcome of each resolving function, in closed form *)

Section Outcomes.

Variable sha256 : bytes -> bytes32.
Variable keccak256 : bytes -> bytes32.
Variable ecrecover : bytes32 -> Z -> bytes32 -> bytes32 -> address.

Let transact' := transact sha256 keccak256 ecrecover.
Let reachable' := reachable sha256 keccak256 ecrecover.
Let paid_out' := paid_out sha256 keccak256 ecrecover.
Let transfer' := transfer sha256 keccak256 ecrecover.

Lemma max_depth_S : max_depth = S (Nat.pred max_depth).
Proof using Type. reflexivity. Qed.

(** From the status write on: the payment is covered, so the call
    succeeds exactly when the recipient accepts. *)
Lemma payout_tail env id st to (ev : State -> Event) s :
  solvent s ->
  status (trades s !!! id) = Status.Locked ->
  Status.terminal st = true ->
  match transfer' env max_depth to (amount (trades s !!! id))
          (begin_payout id st s) with
  | inl e => inl e
  | inr (_, s') => inr (tt, finish (ev s') s')
  end =
  match on_receive env to (amount (trades s !!! id)) with
  | None => inl TransferFailed
  | Some script =>
      let s' := reenter (reentrant_call sha256 keccak256 ecrecover env) script
                  (paying id st to s) in
      inr (tt, finish (ev s') s')
  end.
Proof using Type.
  intros Hsol Hl Hst. unfold transfer'. rewrite max_depth_S, transfer_S.
  destruct (solvent_payout id st to s Hl Hst Hsol) as [Hb _].
  assert ((balance (begin_payout id st s) <? amount (trades s !!! id)) = false)
    as -> by (apply Z.ltb_ge; exact Hb).
  by destruct (on_receive env to _).
Qed.

(** The recipient's script leaves the paid trade as written. *)
Lemma reenter_keeps env id st to script s :
  st <> Status.Uninitialized ->
  trades (reenter (reentrant_call sha256 keccak256 ecrecover env) script
            (paying id st to s)) !!! id
  = with_status st (trades s !!! id).
Proof using Type.
  intros Hst.
  rewrite (grows_keep (paying id st to s)).
  - simpl. by rewrite lookup_total_insert_eq.
  - by apply reenter_grows.
  - simpl. by rewrite lookup_total_insert_eq.
Qed.

Lemma refund_outcome env sd id s :
  reachable' s ->
  let t := trades s !!! id in
  transact' env {| sender := sd; call := CallRefund id |} s =
  if negb (Status.eqb (status t) Status.Locked) then (Reverted InvalidState, s)
  else if negb (timelock t <=? block_timestamp env)
  then (Reverted TimelockNotExpired, s)
  else match on_receive env (buyer t) (amount t) with
       | None => (Reverted TransferFailed, s)
       | Some script =>
           (Success, paid_out' env id Status.Refunded (buyer t) script
                       (Refunded id (buyer t)) s)
       end.
Proof using Type.
  intros Hs. destruct (reachable_inv _ _ _ _ Hs) as [He Hsol]. simpl.
  unfold transact', transact, attempt, dispatch. simpl.
  rewrite refund_eq. simpl. rewrite He.
  destruct (status (trades s !!! id)) eqn:Hst; simpl; try done.
  destruct (timelock _ <=? _); simpl; [|done].
  rewrite (payout_tail env id Status.Refunded _
             (fun s' => Refunded id (buyer (trades s' !!! id)))) by done.
  destruct (on_receive env _ _) as [script|]; [|done]. simpl.
  unfold paid_out', paid_out. by rewrite reenter_keeps.
Qed.

Lemma withdrawWithPreimage_outcome env sd id p sig1 sig2 s :
  reachable' s ->
  let t := trades s !!! id in
  let h := preimage_digest keccak256 id p in
  transact' env {| sender := sd; call := CallWithdrawWithPreimage id p sig1 sig2 |} s =
  if negb (Status.eqb (status t) Status.Locked) then (Reverted InvalidState, s)
  else if negb (sha256 (be_bytes 32 p) =? hashLock t)
  then (Reverted InvalidPreimage, s)
  else match ECDSA_signer ecrecover h sig1, ECDSA_signer ecrecover h sig2 with
       | Some signer1, Some signer2 =>
           if negb (((signer1 =? buyer t) || (signer2 =? buyer t)) &&
                    ((signer1 =? seller t) || (signer2 =? seller t)))
           then (Reverted MissingRequiredSignature, s)
           else match on_receive env (seller t) (amount t) with
                | None => (Reverted TransferFailed, s)
                | Some script =>
                    (Success, paid_out' env id Status.Completed (seller t) script
                                (Withdrawn id (seller t) "Preimage + MultiSig") s)
                end
       | _, _ => (Reverted (signature_error ecrecover h sig1 sig2), s)
       end.
Proof using Type.
  intros Hs. destruct (reachable_inv _ _ _ _ Hs) as [He Hsol]. simpl.
  unfold transact', transact, attempt, dispatch. simpl.
  rewrite withdrawWithPreimage_eq. simpl. rewrite He.
  destruct (status (trades s !!! id)) eqn:Hst; simpl; try done.
  destruct (sha256 _ =? _); simpl; [|done].
  destruct (ECDSA_signer _ _ sig1) as [a|]; [|done].
  destruct (ECDSA_signer _ _ sig2) as [b|]; [|done].
  destruct (negb _); [done|].
  rewrite (payout_tail env id Status.Completed _
             (fun s' => Withdrawn id (seller (trades s' !!! id))
                          "Preimage + MultiSig")) by done.
  destruct (on_receive env _ _) as [script|]; [|done]. simpl.
  unfold paid_out', paid_out. by rewrite reenter_keeps.
Qed.

Lemma resolveDispute_outcome env sd id r sig1 sig2 s :
  reachable' s ->
  let t := trades s !!! id in
  let h := dispute_digest keccak256 id r in
  transact' env {| sender := sd; call := CallResolveDispute id r sig1 sig2 |} s =
  if negb (Status.eqb (status t) Status.Locked) then (Reverted InvalidState, s)
  else if negb ((r =? buyer t) || (r =? seller t))
  then (Reverted InvalidRecipient, s)
  else match ECDSA_signer ecrecover h sig1, ECDSA_signer ecrecover h sig2 with
       | Some signer1, Some signer2 =>
           if negb (2 <=? count_signers [signer1; signer2]
                            [buyer t; seller t; arbiter t] 0 0)
           then (Reverted InsufficientDistinctSignatures, s)
           else match on_receive env r (amount t) with
                | None => (Reverted TransferFailed, s)
                | Some script =>
                    (Success, paid_out' env id Status.Completed r script
                                (Withdrawn id r "Arbitration") s)
                end
       | _, _ => (Reverted (signature_error ecrecover h sig1 sig2), s)
       end.
Proof using Type.
  intros Hs. destruct (reachable_inv _ _ _ _ Hs) as [He Hsol]. simpl.
  unfold transact', transact, attempt, dispatch. simpl.
  rewrite resolveDispute_eq. simpl. rewrite He.
  destruct (status (trades s !!! id)) eqn:Hst; simpl; try done.
  destruct (_ || _); simpl; [|done].
  destruct (ECDSA_signer _ _ sig1) as [a|]; [|done].
  destruct (ECDSA_signer _ _ sig2) as [b|]; [|done].
  destruct (negb _); [done|].
  rewrite (payout_tail env id Status.Completed _
             (fun _ => Withdrawn id r "Arbitration")) by done.
  by destruct (on_receive env _ _) as [script|].
Qed.

Lemma lock_outcome env sd v id sl ar h lt s :
  transact' env {| sender := sd; call := CallLock v id sl ar h lt |} s =
  if negb (0 <? v) then (Reverted ZeroAmount, s)
  else if negb (Status.eqb (status (trades s !!! id)) Status.Uninitialized)
  then (Reverted DuplicateTradeId, s)
  else if negb (negb (sl =? 0) && negb (ar =? 0)) then (Reverted InvalidAddress, s)
  else if UINT256_MAX <? block_timestamp env + lt
  then (Reverted ArithmeticOverflow, s)
  else (Success, locked_state id
                   {| buyer := sd; seller := sl; arbiter := ar; amount := v;
                      hashLock := h; timelock := block_timestamp env + lt;
                      status := Status.Locked |} s).
Proof using Type.
  unfold transact', transact, attempt, dispatch. simpl. rewrite lock_eq.
  destruct (negb (0 <? v)); [done|].
  destruct (negb (Status.eqb _ _)); [done|].
  destruct (negb (negb _ && _)); [done|].
  by destruct (UINT256_MAX <? _).
Qed.

End Outcomes.

(** ** Runs *)

Section RunFacts.

Variable sha256 : bytes -> bytes32.
Variable keccak256 : bytes -> bytes32.
Variable ecrecover : bytes32 -> Z -> bytes32 -> bytes32 -> address.

Let transact' := transact sha256 keccak256 ecrecover.
Let reachable' := reachable sha256 keccak256 ecrecover.
Let run' := run sha256 keccak256 ecrecover.

(** A trade that exists keeps existing; a finished trade never changes. *)
Lemma run_keeps txs : forall s j,
  reachable' s ->
  (status (trades s !!! j) <> Status.Uninitialized ->
   status (trades (run' txs s) !!! j) <> Status.Uninitialized) /\
  (Status.terminal (status (trades s !!! j)) = true ->
   trades (run' txs s) !!! j = trades s !!! j).
Proof using Type.
  induction txs as [|[env m] txs IH]; intros s j Hs; simpl; [done|].
  pose proof (reachable_inv _ _ _ _ Hs) as [He _].
  assert (reachable' (snd (transact' env m s))) as Hs' by (by constructor).
  destruct (IH _ j Hs') as [IH1 IH2].
  pose proof (transact_transitions sha256 keccak256 ecrecover env m s j He) as Htr.
  simpl in Htr. fold transact' in Htr.
  split.
  - intros Hne. apply IH1.
    destruct Htr as [->|[(Hu & _)|(_ & _ & Hl & _ & ->)]]; [done|done|].
    by destruct (call m).
  - intros Hterm.
    destruct Htr as [Heq|[(Hu & _)|(_ & _ & _ & Hl & _)]].
    + rewrite <- Heq. apply IH2. by rewrite Heq.
    + by rewrite Hu in Hterm.
    + by rewrite Hl in Hterm.
Qed.

End RunFacts.

(** ** Helpers for the claims *)

Lemma has_buyer_and_seller t a b :
  buyer t <> seller t ->
  ((a =? buyer t) || (b =? buyer t)) && ((a =? seller t) || (b =? seller t)) = true
  <-> buyer_and_seller t a b.
Proof.
  intros Hne. unfold buyer_and_seller.
  rewrite andb_true_iff, !orb_true_iff, !Z.eqb_eq.
  split; [|tauto].
  intros [[Ha|Hb] [Ha'|Hb']]; subst; tauto.
Qed.

(** The effects of a payout: the payment, then the [Locked] events of the
    recipient's script, then the function's own event. *)
Lemma paid_out_effects sha256 keccak256 ecrecover env id st to script e s :
  exists evs,
    effects (paid_out sha256 keccak256 ecrecover env id st to script e s) =
      effects s ++ Transfer to (amount (trades s !!! id)) :: evs ++ [Emit e] /\
    Forall is_emit_locked evs.
Proof.
  unfold paid_out, reentrant_call.
  pose proof (reenter_grows sha256 keccak256 ecrecover
                (transfer sha256 keccak256 ecrecover env (Nat.pred max_depth))
                (block_timestamp env) script (paying id st to s) eq_refl) as Hg.
  apply grows_spec in Hg as (evs & Hev & Hall & _).
  exists evs. split; [|done]. unfold finish. cbn [effects]. rewrite Hev.
  simpl. by rewrite <- !app_assoc.
Qed.

Lemma paid_out_trade sha256 keccak256 ecrecover env id st to script e s :
  st <> Status.Uninitialized ->
  trades (paid_out sha256 keccak256 ecrecover env id st to script e s) !!! id =
  with_status st (trades s !!! id).
Proof.
  intros Hst. unfold paid_out, finish. cbn [trades]. by apply reenter_keeps.
Qed.

(** * The claims *)

Section Claims.

Variable sha256 : bytes -> bytes32.
Variable keccak256 : bytes -> bytes32.
Variable ecrecover : bytes32 -> Z -> bytes32 -> bytes32 -> address.

Let transact' := transact sha256 keccak256 ecrecover.
Let reachable' := reachable sha256 keccak256 ecrecover.
Let outcomes' := outcomes sha256 keccak256 ecrecover.
Let run' := run sha256 keccak256 ecrecover.
Let paid_out' := paid_out sha256 keccak256 ecrecover.
Let recovered := ECDSA_signer ecrecover.

(** C1. In one transaction the status of any trade [j] either stays, or
    goes from [Uninitialized] to [Locked] with a [Locked] event for [j]
    emitted (only [lock] emits it), or goes from [Locked] to the final
    status of the successful resolving call on [j]: [Completed] for
    [withdrawWithPreimage] and [resolveDispute], [Refunded] for [refund],
    the record being otherwise unchanged.  A resolving call on a trade
    that is not [Locked] reverts with "Invalid status" and changes
    nothing.  A transaction makes a payment only as a successful
    resolving call, and then one payment of the trade's amount.  Hence
    along any run of transactions a trade is paid out at most once, and a
    [Completed] or [Refunded] trade is never paid out and never
    changes. *)
Theorem status_one_shot env m s :
  reachable' s ->
  let r := transact' env m s in
  (forall j,
      trades (snd r) !!! j = trades s !!! j \/
      (status (trades s !!! j) = Status.Uninitialized /\
       status (trades (snd r) !!! j) = Status.Locked /\
       exists evs, effects (snd r) = effects s ++ evs /\
                   Exists (is_locked_event j) evs) \/
      (j = target (call m) /\ fst r = Success /\ is_lock (call m) = false /\
       status (trades s !!! j) = Status.Locked /\
       trades (snd r) !!! j = with_status (final_status (call m)) (trades s !!! j))) /\
  (is_lock (call m) = false ->
   status (trades s !!! target (call m)) <> Status.Locked ->
   r = (Reverted InvalidState, s)) /\
  (exists new,
      effects (snd r) = effects s ++ new /\
      payments new =
        if negb (is_lock (call m)) && succeeded (fst r)
        then [(payee (call m) (trades s !!! target (call m)),
               amount (trades s !!! target (call m)))]
        else []) /\
  (forall txs j,
      (payouts j (outcomes' txs s) <= 1)%nat /\
      (Status.terminal (status (trades s !!! j)) = true ->
       payouts j (outcomes' txs s) = 0%nat /\
       trades (run' txs s) !!! j = trades s !!! j)).
Proof using Type.
  intros Hs. pose proof (reachable_inv _ _ _ _ Hs) as [He _]. simpl.
  split; [|split; [|split]].
  - intros j. by apply (transact_transitions sha256 keccak256 ecrecover).
  - intros Hl Hst. by apply resolving_not_locked.
  - by apply (transact_payments sha256 keccak256 ecrecover).
  - intros txs j.
    destruct (payouts_bound sha256 keccak256 ecrecover txs s j Hs) as [H1 H0].
    split; [exact H1|]. intros Hterm. split; [by apply H0|].
    by apply (run_keeps sha256 keccak256 ecrecover txs s j Hs).
Qed.

(** C2, amended.  On a [Locked] trade, with a recipient among buyer and
    seller, [resolveDispute] succeeds if and only if the two signatures
    recover to two different identities that both are among buyer,
    seller and arbiter, and the recipient accepts the payment.  With two
    such signatures and a recipient that refuses the payment it reverts
    as the transfer does.  When both signatures recover to the same
    identity it reverts with "Need 2-of-3 signatures". *)
Theorem resolveDispute_two_distinct env sd id r sig1 sig2 s :
  reachable' s ->
  let t := trades s !!! id in
  let h := dispute_digest keccak256 id r in
  let out := fst (transact' env
               {| sender := sd; call := CallResolveDispute id r sig1 sig2 |} s) in
  status t = Status.Locked ->
  r = buyer t \/ r = seller t ->
  (out = Success <->
   (exists a b, recovered h sig1 = Some a /\ recovered h sig2 = Some b /\
                a <> b /\ participant t a /\ participant t b) /\
   is_Some (on_receive env r (amount t))) /\
  ((exists a b, recovered h sig1 = Some a /\ recovered h sig2 = Some b /\
                a <> b /\ participant t a /\ participant t b) ->
   on_receive env r (amount t) = None ->
   out = Reverted TransferFailed) /\
  (forall a, recovered h sig1 = Some a -> recovered h sig2 = Some a ->
             out = Reverted InsufficientDistinctSignatures).
Proof using Type.
  intros Hs t h out Hl Hr. subst out. unfold transact'.
  rewrite resolveDispute_outcome by done. simpl. fold t h.
  rewrite Hl. simpl.
  assert (((r =? buyer t) || (r =? seller t)) = true) as ->
    by (apply orb_true_iff; rewrite !Z.eqb_eq; exact Hr).
  simpl. fold recovered.
  destruct (recovered h sig1) as [a|] eqn:Ha.
  2:{ split; [|split; [|done]].
      - split; [done|]. by intros [(a & b & [=] & _) _].
      - by intros (a & b & [=] & _). }
  destruct (recovered h sig2) as [b|] eqn:Hb.
  2:{ split; [|split; [|done]].
      - split; [done|]. by intros [(a' & b & _ & [=] & _) _].
      - by intros (a' & b & _ & [=] & _). }
  pose proof (tryRecover_nonzero _ _ _ _ Ha) as Hnz.
  pose proof (count_signers_threshold t a b Hnz) as Hcount.
  destruct (2 <=? count_signers _ _ _ _) eqn:Hc; simpl.
  - apply proj1 in Hcount. specialize (Hcount eq_refl).
    destruct (on_receive env r (amount t)) as [script|] eqn:Hacc; simpl.
    + split; [|split].
      * split; [|done]. intros _. split; [by exists a, b|by eexists].
      * done.
      * intros a' [= <-] [= ->]. by destruct Hcount as [? _].
    + split; [|split].
      * split; [done|]. by intros [_ [? [=]]].
      * done.
      * intros a' [= <-] [= ->]. by destruct Hcount as [? _].
  - split; [|split; [|done]].
    + split; [done|].
      intros [(a' & b' & [= <-] & [= <-] & Hab) _].
      apply Hcount in Hab. congruence.
    + intros (a' & b' & [= <-] & [= <-] & Hab).
      apply Hcount in Hab. congruence.
Qed.

(** C5, amended.  [refund] succeeds if and only if the trade is
    [Locked], the block's timestamp has reached its timelock and the
    buyer accepts the payment; with a buyer that refuses it, it reverts
    as the transfer does.  Before the timelock it reverts with
    "Timelock not expired", whoever calls.  On success the trade is
    [Refunded] and otherwise unchanged, the full amount is transferred
    to the buyer, and the last event is [Refunded(tradeId, buyer)]. *)
Theorem refund_after_expiry env sd id s :
  reachable' s ->
  let t := trades s !!! id in
  let r := transact' env {| sender := sd; call := CallRefund id |} s in
  (fst r = Success <->
   status t = Status.Locked /\ timelock t <= block_timestamp env /\
   is_Some (on_receive env (buyer t) (amount t))) /\
  (status t = Status.Locked -> timelock t <= block_timestamp env ->
   on_receive env (buyer t) (amount t) = None ->
   r = (Reverted TransferFailed, s)) /\
  (status t = Status.Locked -> block_timestamp env < timelock t ->
   r = (Reverted TimelockNotExpired, s)) /\
  (fst r = Success ->
   trades (snd r) !!! id = with_status Status.Refunded t /\
   exists evs,
     effects (snd r) =
       effects s ++ Transfer (buyer t) (amount t) :: evs ++
                    [Emit (Refunded id (buyer t))] /\
     Forall is_emit_locked evs).
Proof using Type.
  intros Hs t r. subst r. unfold transact'.
  rewrite refund_outcome by done. cbn zeta. fold t.
  destruct (status t) eqn:Hst; cbn;
    try (split; [split; [done|by intros [? _]]|repeat split; done]).
  destruct (Z.leb_spec (timelock t) (block_timestamp env)) as [Hle|Hlt]; cbn.
  - destruct (on_receive env (buyer t) (amount t)) as [script|] eqn:Hacc; cbn.
    + split; [split; [|done]; intros _; repeat split; [done|by eexists]|].
      split; [done|]. split; [lia|]. intros _. split.
      * by apply paid_out_trade.
      * apply paid_out_effects.
    + split; [split; [done|by intros (_ & _ & ? & [=])]|].
      split; [done|]. split; [lia|done].
  - split; [split; [done|lia]|]. split; [lia|]. split; done.
Qed.

(** C3, amended.  On a [Locked] trade whose buyer and seller are
    different identities, [withdrawWithPreimage] succeeds if and only if
    the SHA-256 of the preimage is the stored hash lock, the two
    signatures recover to the buyer and the seller, in either order, and
    the seller accepts the payment.  Two signatures of the buyer
    fail. *)
Theorem withdrawWithPreimage_both_parties env sd id p sig1 sig2 s :
  reachable' s ->
  let t := trades s !!! id in
  let h := preimage_digest keccak256 id p in
  let out := fst (transact' env
               {| sender := sd; call := CallWithdrawWithPreimage id p sig1 sig2 |} s) in
  status t = Status.Locked ->
  buyer t <> seller t ->
  (out = Success <->
   sha256 (be_bytes 32 p) = hashLock t /\
   (exists a b, recovered h sig1 = Some a /\ recovered h sig2 = Some b /\
                buyer_and_seller t a b) /\
   is_Some (on_receive env (seller t) (amount t))) /\
  (recovered h sig1 = Some (buyer t) -> recovered h sig2 = Some (buyer t) ->
   out = Reverted (if sha256 (be_bytes 32 p) =? hashLock t
                   then MissingRequiredSignature else InvalidPreimage)).
Proof using Type.
  intros Hs t h out Hl Hne. subst out. unfold transact'.
  rewrite withdrawWithPreimage_outcome by done. cbn zeta. fold t h recovered.
  rewrite Hl. cbn [Status.eqb negb].
  destruct (Z.eqb_spec (sha256 (be_bytes 32 p)) (hashLock t)) as [Hh|Hh];
    cbn [negb].
  2:{ split; [|done]. split; [done|]. by intros [? _]. }
  destruct (recovered h sig1) as [a|] eqn:Ha.
  2:{ split; [|done]. split; [done|]. by intros (_ & (a & b & [=] & _) & _). }
  destruct (recovered h sig2) as [b|] eqn:Hb.
  2:{ split; [|done]. split; [done|].
      by intros (_ & (a' & b & _ & [=] & _) & _). }
  pose proof (has_buyer_and_seller t a b Hne) as Hboth.
  destruct (_ && _) eqn:Hc; cbn [negb fst].
  - apply proj1 in Hboth. specialize (Hboth eq_refl).
    destruct (on_receive env (seller t) (amount t)) as [script|] eqn:Hacc;
      cbn [fst].
    + split.
      * split; [|done]. intros _. split; [done|].
        split; [by exists a, b|by eexists].
      * intros [= ->] [= ->]. destruct Hboth as [[_ ?]|[? _]]; congruence.
    + split.
      * split; [done|]. by intros (_ & _ & ? & [=]).
      * intros [= ->] [= ->]. destruct Hboth as [[_ ?]|[? _]]; congruence.
  - split; [|done]. split; [done|].
    intros (_ & (a' & b' & [= <-] & [= <-] & Hab) & _).
    apply Hboth in Hab. congruence.
Qed.

(** C6, amended.  [lock] succeeds exactly when the amount is positive,
    the trade id is unused, seller and arbiter are both non-zero and the
    timelock does not overflow; nothing compares seller or arbiter with
    the caller.  With a zero seller or arbiter it always reverts, and
    the revert is "Invalid addresses" once the amount and trade-id
    checks, which come first, have passed.  On success the trade is
    created as stated. *)
Theorem lock_address_check env sd v id sl ar h lt s :
  let r := transact' env {| sender := sd; call := CallLock v id sl ar h lt |} s in
  (fst r = Success <->
   0 < v /\ status (trades s !!! id) = Status.Uninitialized /\
   sl <> 0 /\ ar <> 0 /\ block_timestamp env + lt <= UINT256_MAX) /\
  (sl = 0 \/ ar = 0 -> exists e, r = (Reverted e, s)) /\
  (sl = 0 \/ ar = 0 -> 0 < v ->
   status (trades s !!! id) = Status.Uninitialized ->
   r = (Reverted InvalidAddress, s)) /\
  (fst r = Success ->
   trades (snd r) !!! id =
     {| buyer := sd; seller := sl; arbiter := ar; amount := v; hashLock := h;
        timelock := block_timestamp env + lt; status := Status.Locked |}).
Proof using Type.
  cbn zeta. unfold transact'. rewrite lock_outcome.
  destruct (Z.ltb_spec 0 v) as [Hv|Hv]; cbn [negb].
  2:{ split; [split; [done|lia]|]. split; [eauto|]. split; [lia|done]. }
  destruct (status (trades s !!! id)) eqn:Hst; cbn [Status.eqb negb];
    try (split; [split; [done|by intros (_ & ? & _)]|];
         split; [eauto|]; split; done).
  destruct (Z.eqb_spec sl 0) as [Hsl|Hsl]; cbn [negb andb].
  { split; [split; [done|by intros (_ & _ & ? & _)]|].
    split; [eauto|]. split; done. }
  destruct (Z.eqb_spec ar 0) as [Har|Har]; cbn [negb andb].
  { split; [split; [done|by intros (_ & _ & _ & ? & _)]|].
    split; [eauto|]. split; done. }
  destruct (Z.ltb_spec UINT256_MAX (block_timestamp env + lt)) as [Hov|Hov].
  { split; [split; [done|lia]|]. split; [by intros [?|?]|].
    split; [by intros [?|?]|done]. }
  split; [split; [done|]; intros _; repeat split; done|].
  split; [by intros [?|?]|]. split; [by intros [?|?]|].
  intros _. cbn. by rewrite lookup_total_insert_eq.
Qed.

(** C7, amended.  [lock] with a zero amount always reverts with "Amount
    must be greater than 0" and changes nothing.  Once a [lock] of a
    trade id has succeeded, then after any further transactions every
    [lock] of the same id reverts and changes nothing, whatever its
    other arguments: with "Trade ID already exists" when its amount is
    positive, and with the zero-amount revert, which is checked first,
    when it is not. *)
Theorem lock_zero_and_duplicate env1 m1 s txs env2 sd v sl ar h lt :
  reachable' s ->
  is_lock (call m1) = true ->
  fst (transact' env1 m1 s) = Success ->
  let id := target (call m1) in
  let s2 := run' txs (snd (transact' env1 m1 s)) in
  (forall env0 sd0 id0 sl0 ar0 h0 lt0 s0,
      transact' env0 {| sender := sd0; call := CallLock 0 id0 sl0 ar0 h0 lt0 |} s0
      = (Reverted ZeroAmount, s0)) /\
  transact' env2 {| sender := sd; call := CallLock v id sl ar h lt |} s2
  = (Reverted (if 0 <? v then DuplicateTradeId else ZeroAmount), s2).
Proof using Type.
  intros Hs Hl Hok id s2. split.
  { intros. unfold transact'. by rewrite lock_outcome. }
  assert (status (trades s2 !!! id) <> Status.Uninitialized) as Hex.
  { subst s2. apply (run_keeps sha256 keccak256 ecrecover); [by constructor|].
    apply transact_success, success_step in Hok
      as (_ & _ & _ & _ & _ & _ & _ & _ & _ & Hfin & _);
      [|by destruct (reachable_inv _ _ _ _ Hs)].
    fold transact' id in Hfin. rewrite Hfin. by destruct (call m1). }
  unfold transact'. rewrite lock_outcome.
  destruct (0 <? v); cbn [negb]; [|done].
  by destruct (status (trades s2 !!! id)).
Qed.

(** A successful resolving transaction, whichever of the three it is:
    the recipient accepted, and the final state is the paid-out one. *)
Lemma resolving_paid_out env m s :
  reachable' s ->
  is_lock (call m) = false ->
  fst (transact' env m s) = Success ->
  let id := target (call m) in
  let t := trades s !!! id in
  status t = Status.Locked /\
  exists script,
    on_receive env (payee (call m) t) (amount t) = Some script /\
    snd (transact' env m s) =
      paid_out' env id (final_status (call m)) (payee (call m) t) script
                (receipt (call m) t) s.
Proof using Type.
  intros Hs Hl. destruct m as [sd c]. cbn [call] in *. unfold transact'.
  destruct c as [|id p s1 s2|id r s1 s2|id]; [done|..]; cbn zeta;
    cbn [target final_status payee receipt].
  - rewrite withdrawWithPreimage_outcome by done. cbn zeta.
    destruct (status (trades s !!! id)); try done. cbn [Status.eqb negb].
    destruct (negb _); [done|].
    destruct (ECDSA_signer _ _ s1); [|done].
    destruct (ECDSA_signer _ _ s2); [|done].
    destruct (negb _); [done|].
    destruct (on_receive env _ _) as [script|]; [|done]. eauto.
  - rewrite resolveDispute_outcome by done. cbn zeta.
    destruct (status (trades s !!! id)); try done. cbn [Status.eqb negb].
    destruct (negb _); [done|].
    destruct (ECDSA_signer _ _ s1); [|done].
    destruct (ECDSA_signer _ _ s2); [|done].
    destruct (negb _); [done|].
    destruct (on_receive env _ _) as [script|]; [|done]. eauto.
  - rewrite refund_outcome by done. cbn zeta.
    destruct (status (trades s !!! id)); try done. cbn [Status.eqb negb].
    destruct (negb _); [done|].
    destruct (on_receive env _ _) as [script|]; [|done]. eauto.
Qed.

(** C8. In [withdrawWithPreimage], [resolveDispute] and [refund] the
    status write precedes the transfer.  Whatever the transfer does, a
    resolving call that succeeds found the trade [Locked] and issued its
    one transfer, of the trade's amount to the payee, in the state in
    which the trade already has its final status and nothing else has
    changed but the reentrancy guard; it ends with the event, in the
    state the transfer returned.  With the transfer running the
    recipient's code, every call the recipient makes back into the
    contract during the payment starts in a state where the trade has
    that final status, never [Locked], and fails if it targets the same
    trade. *)
Theorem status_written_before_transfer :
  (forall (tr : address -> uint256 -> M unit) ts m s u s',
      is_lock (call m) = false ->
      dispatch sha256 keccak256 ecrecover tr ts m s = inr (u, s') ->
      let id := target (call m) in
      let t := trades s !!! id in
      let st := final_status (call m) in
      let s_call :=
        {| trades := <[id := with_status st t]> (trades s); entered := true;
           balance := balance s; effects := effects s |} in
      status t = Status.Locked /\
      Status.terminal st = true /\
      status (trades s_call !!! id) = st /\
      exists s_mid,
        tr (payee (call m) t) (amount t) s_call = inr (tt, s_mid) /\
        s' = finish (receipt (call m) (trades s_mid !!! id)) s_mid) /\
  (forall env m s,
      reachable' s ->
      is_lock (call m) = false ->
      fst (transact' env m s) = Success ->
      let id := target (call m) in
      let t := trades s !!! id in
      let st := final_status (call m) in
      let to := payee (call m) t in
      exists script,
        on_receive env to (amount t) = Some script /\
        snd (transact' env m s) =
          finish (receipt (call m) t)
            (reenter (reentrant_call sha256 keccak256 ecrecover env) script
               (paying id st to s)) /\
        status (trades (paying id st to s) !!! id) = st /\
        effects (paying id st to s) = effects s ++ [Transfer to (amount t)] /\
        Forall (fun '(s_i, m_i, out_i) =>
                  status (trades s_i !!! id) = st /\
                  (target (call m_i) = id -> out_i <> Success))
               (reentries (reentrant_call sha256 keccak256 ecrecover env) script
                  (paying id st to s))).
Proof using Type.
  split.
  - intros tr ts m s u s' Hl Hd id t st s_call.
    apply resolving_eq in Hd as (_ & Hst & s_mid & Htr & ->); [|done].
    split; [done|].
    split; [subst st; by destruct (call m)|].
    split; [subst s_call; cbn; by rewrite lookup_total_insert_eq|].
    by exists s_mid.
  - intros env m s Hs Hl Hok id t st to.
    destruct (resolving_paid_out env m s Hs Hl Hok)
      as (Hst & script & Hacc & Hfin).
    exists script. split; [exact Hacc|]. split; [exact Hfin|].
    assert (Status.terminal st = true) as Hterm
      by (subst st; by destruct (call m)).
    assert (st <> Status.Uninitialized) as Hne by (by destruct st).
    assert (status (trades (paying id st to s) !!! id) = st) as Hpay
      by (cbn; by rewrite lookup_total_insert_eq).
    do 2 (split; [done|]).
    pose proof (reentries_spec sha256 keccak256 ecrecover
                  (transfer sha256 keccak256 ecrecover env (Nat.pred max_depth))
                  (block_timestamp env) script (paying id st to s) eq_refl)
      as Hre.
    eapply Forall_impl; [exact Hre|].
    intros [[s_i m_i] out_i] (Hg & _ & Hsucc).
    assert (status (trades s_i !!! id) = st) as Hsi
      by (rewrite (grows_keep _ _ id Hg); congruence).
    split; [exact Hsi|]. intros Htgt Hout.
    destruct (Hsucc Hout) as [_ Hu]. rewrite Htgt in Hu. congruence.
Qed.

(** C9, amended.  A successful [withdrawWithPreimage] adds to the
    effects the payment to the seller and, last, the event
    [Withdrawn(tradeId, seller, "Preimage + MultiSig")]; a successful
    [resolveDispute] adds the payment to the recipient and, last,
    [Withdrawn(tradeId, recipient, "Arbitration")].  In between there
    are only [Locked] events. *)
Theorem withdrawn_events env sd id s :
  reachable' s ->
  let t := trades s !!! id in
  (forall p sig1 sig2,
      let r := transact' env
                 {| sender := sd; call := CallWithdrawWithPreimage id p sig1 sig2 |} s in
      fst r = Success ->
      exists evs,
        effects (snd r) =
          effects s ++ Transfer (seller t) (amount t) :: evs ++
            [Emit (Withdrawn id (seller t) "Preimage + MultiSig")] /\
        Forall is_emit_locked evs) /\
  (forall rcp sig1 sig2,
      let r := transact' env
                 {| sender := sd; call := CallResolveDispute id rcp sig1 sig2 |} s in
      fst r = Success ->
      exists evs,
        effects (snd r) =
          effects s ++ Transfer rcp (amount t) :: evs ++
            [Emit (Withdrawn id rcp "Arbitration")] /\
        Forall is_emit_locked evs).
Proof using Type.
  intros Hs t. split.
  - intros p sig1 sig2 r Hok.
    destruct (resolving_paid_out env
                {| sender := sd; call := CallWithdrawWithPreimage id p sig1 sig2 |}
                s Hs eq_refl Hok) as (_ & script & _ & Hfin).
    subst r. rewrite Hfin. apply paid_out_effects.
  - intros rcp sig1 sig2 r Hok.
    destruct (resolving_paid_out env
                {| sender := sd; call := CallResolveDispute id rcp sig1 sig2 |}
                s Hs eq_refl Hok) as (_ & script & _ & Hfin).
    subst r. rewrite Hfin. apply paid_out_effects.
Qed.

(** C10. [lock] asks nothing of buyer, seller and arbiter beyond a
    non-zero seller and arbiter: with a positive amount, an unused trade
    id and a timelock that does not overflow it succeeds, also when
    seller, arbiter and caller coincide.  And on a [Locked] trade whose
    seller is its buyer, [withdrawWithPreimage] with the right preimage
    succeeds on two signatures of that one identity. *)
Theorem lock_no_distinctness env sd v id sl ar h lt s :
  0 < v ->
  status (trades s !!! id) = Status.Uninitialized ->
  sl <> 0 -> ar <> 0 ->
  block_timestamp env + lt <= UINT256_MAX ->
  transact' env {| sender := sd; call := CallLock v id sl ar h lt |} s =
    (Success,
     locked_state id
       {| buyer := sd; seller := sl; arbiter := ar; amount := v; hashLock := h;
          timelock := block_timestamp env + lt; status := Status.Locked |} s) /\
  (forall env' sd' p sig1 sig2 s',
      reachable' s' ->
      let t := trades s' !!! id in
      let d := preimage_digest keccak256 id p in
      status t = Status.Locked ->
      seller t = buyer t ->
      sha256 (be_bytes 32 p) = hashLock t ->
      recovered d sig1 = Some (buyer t) ->
      recovered d sig2 = Some (buyer t) ->
      is_Some (on_receive env' (seller t) (amount t)) ->
      fst (transact' env'
             {| sender := sd'; call := CallWithdrawWithPreimage id p sig1 sig2 |} s')
      = Success).
Proof using Type.
  intros Hv Hu Hsl Har Hov. split.
  - unfold transact'. rewrite lock_outcome, Hu.
    assert ((0 <? v) = true) as -> by (by apply Z.ltb_lt).
    assert ((sl =? 0) = false) as -> by (by apply Z.eqb_neq).
    assert ((ar =? 0) = false) as -> by (by apply Z.eqb_neq).
    assert ((UINT256_MAX <? block_timestamp env + lt) = false) as ->
      by (by apply Z.ltb_ge).
    done.
  - intros env' sd' p sig1 sig2 s' Hs t d Hl Hsame Hh H1 H2 [script Hacc].
    unfold transact'. rewrite withdrawWithPreimage_outcome by done.
    cbn zeta. fold t d recovered. rewrite Hl, H1, H2, Hacc, Hsame.
    cbn [Status.eqb negb].
    assert ((sha256 (be_bytes 32 p) =? hashLock t) = true) as ->
      by (by apply Z.eqb_eq).
    by rewrite Z.eqb_refl.
Qed.


End Claims.

(** * The claims on concrete inputs *)

Lemma reachable_s_locked : reachable toy_hash toy_hash toy_ecrecover s_locked.
Proof. unfold s_locked, toy_transact. apply reachable_step, reachable_init. Defined.

Lemma reachable_s_refunded : reachable toy_hash toy_hash toy_ecrecover s_refunded.
Proof. unfold s_refunded, toy_transact. apply reachable_step, reachable_s_locked. Defined.

Lemma reachable_s_self : reachable toy_hash toy_hash toy_ecrecover s_self.
Proof. unfold s_self, toy_transact. apply reachable_step, reachable_init. Defined.

(** A refunded trade cannot be refunded again. *)
Lemma status_one_shot_witness :
  reachable toy_hash toy_hash toy_ecrecover s_refunded /\
  toy_transact (quiet 6000) {| sender := 7; call := CallRefund 1 |} s_refunded
  = (Reverted InvalidState, s_refunded).
Proof.
  split; [exact reachable_s_refunded|].
  destruct (status_one_shot toy_hash toy_hash toy_ecrecover (quiet 6000)
              {| sender := 7; call := CallRefund 1 |} s_refunded
              reachable_s_refunded) as (_ & H & _).
  apply H; [reflexivity|]. vm_compute. discriminate.
Defined.

(** Buyer and arbiter award the deposit to the buyer. *)
Lemma resolveDispute_two_distinct_witness :
  reachable toy_hash toy_hash toy_ecrecover s_locked /\
  status (trades s_locked !!! 1) = Status.Locked /\
  fst (toy_transact (quiet 1001)
         {| sender := 9; call := CallResolveDispute 1 7 (toy_sig 7) (toy_sig 9) |} s_locked)
  = Success.
Proof.
  split; [exact reachable_s_locked|]. split; [vm_compute; reflexivity|].
  destruct (resolveDispute_two_distinct toy_hash toy_hash toy_ecrecover (quiet 1001)
              9 1 7 (toy_sig 7) (toy_sig 9) s_locked reachable_s_locked)
    as (H & _).
  - vm_compute; reflexivity.
  - left. vm_compute; reflexivity.
  - apply H. split.
    + exists 7, 9. vm_compute. repeat split; try discriminate; auto.
    + eexists. reflexivity.
Defined.

(** C2 as stated fails when the recipient refuses the payment: buyer and
    arbiter, two different parties of the [Locked] trade, sign for the
    buyer, and the call reverts. *)
Lemma resolveDispute_refused_payment_counterexample :
  let t := trades s_locked !!! 1 in
  let h := dispute_digest toy_hash 1 7 in
  status t = Status.Locked /\ buyer t = 7 /\ arbiter t = 9 /\
  ECDSA_signer toy_ecrecover h (toy_sig 7) = Some 7 /\
  ECDSA_signer toy_ecrecover h (toy_sig 9) = Some 9 /\
  toy_transact (stubborn 1001)
    {| sender := 9; call := CallResolveDispute 1 7 (toy_sig 7) (toy_sig 9) |} s_locked
  = (Reverted TransferFailed, s_locked).
Proof. vm_compute. repeat split; reflexivity. Qed.

(** The refund of [s_locked] at time 5000, after the timelock 4600. *)
Lemma refund_after_expiry_witness :
  reachable toy_hash toy_hash toy_ecrecover s_locked /\
  fst (toy_transact (quiet 5000) {| sender := 7; call := CallRefund 1 |} s_locked)
  = Success.
Proof.
  split; [exact reachable_s_locked|].
  destruct (refund_after_expiry toy_hash toy_hash toy_ecrecover (quiet 5000)
              7 1 s_locked reachable_s_locked) as [H _].
  apply H. split; [vm_compute; reflexivity|].
  split; [vm_compute; discriminate|]. eexists. reflexivity.
Defined.

(** C5 as stated fails when the buyer refuses the payment: the trade is
    [Locked] and its timelock 4600 has passed, and [refund] reverts. *)
Lemma refund_refused_payment_counterexample :
  let t := trades s_locked !!! 1 in
  status t = Status.Locked /\ timelock t = 4600 /\
  block_timestamp (stubborn 5000) = 5000 /\
  toy_transact (stubborn 5000) {| sender := 7; call := CallRefund 1 |} s_locked
  = (Reverted TransferFailed, s_locked).
Proof. vm_compute. repeat split; reflexivity. Qed.

(** Buyer and seller release the deposit of [s_locked] with preimage 42. *)
Lemma withdrawWithPreimage_both_parties_witness :
  reachable toy_hash toy_hash toy_ecrecover s_locked /\
  buyer (trades s_locked !!! 1) <> seller (trades s_locked !!! 1) /\
  fst (toy_transact (quiet 1001)
         {| sender := 8; call := CallWithdrawWithPreimage 1 42 (toy_sig 8) (toy_sig 7) |} s_locked)
  = Success.
Proof.
  split; [exact reachable_s_locked|]. split; [vm_compute; discriminate|].
  destruct (withdrawWithPreimage_both_parties toy_hash toy_hash toy_ecrecover
              (quiet 1001) 8 1 42 (toy_sig 8) (toy_sig 7) s_locked
              reachable_s_locked) as [H _].
  - vm_compute; reflexivity.
  - vm_compute; discriminate.
  - apply H. split; [vm_compute; reflexivity|]. split.
    + exists 8, 7.
      split; [vm_compute; reflexivity|]. split; [vm_compute; reflexivity|].
      right. vm_compute. split; reflexivity.
    + eexists. reflexivity.
Defined.

(** C3 as stated fails on a trade whose seller is its buyer: the buyer's
    signature twice succeeds, and so does the buyer's signature next to a
    stranger's, a pair that is not buyer and seller.  It also fails when
    the seller refuses the payment: with the right preimage and the
    signatures of buyer and seller the call reverts. *)
Lemma withdraw_single_identity_counterexample :
  let t := trades s_self !!! 1 in
  let withdraw sig1 sig2 :=
    toy_transact (quiet 1001)
      {| sender := 7; call := CallWithdrawWithPreimage 1 42 sig1 sig2 |} s_self in
  (status t = Status.Locked /\ buyer t = 7 /\ seller t = 7 /\
   ECDSA_signer toy_ecrecover (preimage_digest toy_hash 1 42) (toy_sig 7) = Some 7 /\
   ECDSA_signer toy_ecrecover (preimage_digest toy_hash 1 42) (toy_sig 99) = Some 99 /\
   fst (withdraw (toy_sig 7) (toy_sig 7)) = Success /\
   fst (withdraw (toy_sig 7) (toy_sig 99)) = Success /\
   ~ buyer_and_seller t 7 99) /\
  (let t' := trades s_locked !!! 1 in
   status t' = Status.Locked /\ buyer t' = 7 /\ seller t' = 8 /\
   toy_hash (be_bytes 32 42) = hashLock t' /\
   ECDSA_signer toy_ecrecover (preimage_digest toy_hash 1 42) (toy_sig 8) = Some 8 /\
   toy_transact (stubborn 1001)
     {| sender := 8; call := CallWithdrawWithPreimage 1 42 (toy_sig 7) (toy_sig 8) |}
     s_locked
   = (Reverted TransferFailed, s_locked)).
Proof.
  vm_compute. repeat split; try reflexivity.
  intros [[_ H]|[_ H]]; discriminate.
Qed.

(** C6 as stated fails: a [lock] whose seller and arbiter are the caller
    is accepted. *)
Lemma lock_seller_is_caller_counterexample :
  let r := toy_transact (quiet 1000)
             {| sender := 7; call := CallLock 5 1 7 7 42 3600 |} init in
  fst r = Success /\ fst r <> Reverted InvalidAddress /\
  trades (snd r) !!! 1 =
    {| buyer := 7; seller := 7; arbiter := 7; amount := 5; hashLock := 42;
       timelock := 4600; status := Status.Locked |}.
Proof. vm_compute. repeat split; try reflexivity. discriminate. Qed.

Lemma lock_address_check_witness :
  toy_transact (quiet 1000) {| sender := 7; call := CallLock 5 1 0 9 42 3600 |} init
  = (Reverted InvalidAddress, init).
Proof.
  destruct (lock_address_check toy_hash toy_hash toy_ecrecover (quiet 1000)
              7 5 1 0 9 42 3600 init) as (_ & _ & H & _).
  apply H; [by left|lia|reflexivity].
Defined.

(** C7 as stated fails: after a successful [lock] of trade 1, a second
    [lock] of trade 1 with a zero amount reverts with the zero-amount
    reason, not with "Trade ID already exists". *)
Lemma second_lock_zero_amount_counterexample :
  let first := toy_transact (quiet 1000)
                 {| sender := 7; call := CallLock 5 1 8 9 42 3600 |} init in
  let second := toy_transact (quiet 1001)
                  {| sender := 7; call := CallLock 0 1 8 9 42 3600 |} (snd first) in
  fst first = Success /\
  fst second = Reverted ZeroAmount /\
  fst second <> Reverted DuplicateTradeId.
Proof. vm_compute. repeat split; try reflexivity. discriminate. Qed.

(** After trade 1 was locked and refunded, it cannot be locked again. *)
Lemma lock_zero_and_duplicate_witness :
  reachable toy_hash toy_hash toy_ecrecover init /\
  toy_transact (quiet 6000) {| sender := 3; call := CallLock 9 1 4 5 0 10 |} s_refunded
  = (Reverted DuplicateTradeId, s_refunded).
Proof.
  split; [apply reachable_init|].
  destruct (lock_zero_and_duplicate toy_hash toy_hash toy_ecrecover
              (quiet 1000)
              {| sender := 7; call := CallLock 5 1 8 9 (toy_hash (be_bytes 32 42)) 3600 |}
              init
              [(quiet 5000, {| sender := 7; call := CallRefund 1 |})]
              (quiet 6000) 3 9 4 5 0 10) as [_ H].
  - apply reachable_init.
  - reflexivity.
  - vm_compute; reflexivity.
  - exact H.
Defined.

(** The buyer of [s_locked] takes the refund only if the trade reads
    [Refunded] by the time the payment arrives: the refund goes through.
    And a buyer that, while being refunded, calls [refund] and
    [withdrawWithPreimage] on the same trade sees both calls revert. *)
Lemma status_written_before_transfer_witness :
  let s_call := begin_payout 1 Status.Refunded s_locked in
  dispatch toy_hash toy_hash toy_ecrecover (probe 1 Status.Refunded) 5000
    {| sender := 7; call := CallRefund 1 |} s_locked
  = inr (tt, finish (Refunded 1 7) (pay 7 5 s_call)) /\
  status (trades s_locked !!! 1) = Status.Locked /\
  status (trades s_call !!! 1) = Status.Refunded /\
  reachable toy_hash toy_hash toy_ecrecover s_locked /\
  fst (toy_transact (reentering 5000) {| sender := 7; call := CallRefund 1 |} s_locked)
    = Success /\
  exists script,
    on_receive (reentering 5000) 7 5 = Some script /\
    Forall (fun '(s_i, m_i, out_i) =>
              status (trades s_i !!! 1) = Status.Refunded /\
              (target (call m_i) = 1 -> out_i <> Success))
           (reentries (reentrant_call toy_hash toy_hash toy_ecrecover
                         (reentering 5000))
              script (paying 1 Status.Refunded 7 s_locked)).
Proof.
  cbv zeta.
  assert (dispatch toy_hash toy_hash toy_ecrecover (probe 1 Status.Refunded) 5000
            {| sender := 7; call := CallRefund 1 |} s_locked
          = inr (tt, finish (Refunded 1 7)
                       (pay 7 5 (begin_payout 1 Status.Refunded s_locked))))
    as Hd by (vm_compute; reflexivity).
  assert (fst (toy_transact (reentering 5000)
                 {| sender := 7; call := CallRefund 1 |} s_locked) = Success)
    as Hok by (vm_compute; reflexivity).
  destruct (status_written_before_transfer toy_hash toy_hash toy_ecrecover)
    as [Hany Hrun].
  destruct (Hany (probe 1 Status.Refunded) 5000
              {| sender := 7; call := CallRefund 1 |} s_locked tt _ eq_refl Hd)
    as (Hl & _ & Hst & _).
  destruct (Hrun (reentering 5000) {| sender := 7; call := CallRefund 1 |}
              s_locked reachable_s_locked eq_refl Hok)
    as (script & Hacc & _ & _ & _ & Hall).
  split; [exact Hd|]. split; [exact Hl|]. split; [exact Hst|].
  split; [exact reachable_s_locked|]. split; [exact Hok|].
  exists script. split; [exact Hacc|exact Hall].
Defined.

(** C9 as stated fails: the method strings of the two [Withdrawn] events
    are not "preimage" and "arbitration". *)
Lemma method_string_counterexample :
  let a := toy_transact (quiet 1001)
             {| sender := 8; call := CallWithdrawWithPreimage 1 42 (toy_sig 7) (toy_sig 8) |} s_locked in
  let b := toy_transact (quiet 1001)
             {| sender := 9; call := CallResolveDispute 1 7 (toy_sig 7) (toy_sig 9) |} s_locked in
  fst a = Success /\
  last (effects (snd a)) = Some (Emit (Withdrawn 1 8 "Preimage + MultiSig")) /\
  ~ In (Emit (Withdrawn 1 8 "preimage")) (effects (snd a)) /\
  fst b = Success /\
  last (effects (snd b)) = Some (Emit (Withdrawn 1 7 "Arbitration")) /\
  ~ In (Emit (Withdrawn 1 7 "arbitration")) (effects (snd b)).
Proof.
  vm_compute. repeat split; try reflexivity.
  - intros [H|[H|[H|[]]]]; discriminate.
  - intros [H|[H|[H|[]]]]; discriminate.
Qed.

Lemma withdrawn_events_witness :
  reachable toy_hash toy_hash toy_ecrecover s_locked /\
  exists evs,
    effects (snd (toy_transact (quiet 1001)
                    {| sender := 9; call := CallResolveDispute 1 7 (toy_sig 7) (toy_sig 9) |} s_locked))
    = effects s_locked ++ Transfer 7 (amount (trades s_locked !!! 1)) :: evs ++
        [Emit (Withdrawn 1 7 "Arbitration")] /\
    Forall is_emit_locked evs.
Proof.
  split; [exact reachable_s_locked|].
  destruct (withdrawn_events toy_hash toy_hash toy_ecrecover (quiet 1001) 9 1
              s_locked reachable_s_locked) as [_ H].
  apply (H 7 (toy_sig 7) (toy_sig 9)). vm_compute; reflexivity.
Defined.

(** Account 7 locks a trade naming itself seller and arbiter, then
    releases it with two signatures of its own. *)
Lemma lock_no_distinctness_witness :
  toy_transact (quiet 1000)
    {| sender := 7; call := CallLock 5 1 7 7 (toy_hash (be_bytes 32 42)) 3600 |} init
  = (Success, s_self) /\
  fst (toy_transact (quiet 1001)
         {| sender := 7; call := CallWithdrawWithPreimage 1 42 (toy_sig 7) (toy_sig 7) |} s_self)
  = Success.
Proof.
  destruct (lock_no_distinctness toy_hash toy_hash toy_ecrecover (quiet 1000)
              7 5 1 7 7 (toy_hash (be_bytes 32 42)) 3600 init) as [Hlock Hw].
  - lia.
  - reflexivity.
  - discriminate.
  - discriminate.
  - vm_compute; discriminate.
  - split.
    + unfold toy_transact. rewrite Hlock. vm_compute. reflexivity.
    + apply (Hw (quiet 1001) 7 42 (toy_sig 7) (toy_sig 7) s_self reachable_s_self).
      * vm_compute; reflexivity.
      * vm_compute; reflexivity.
      * vm_compute; reflexivity.
      * vm_compute; reflexivity.
      * vm_compute; reflexivity.
      * eexists. reflexivity.
Defined.




(** * Further properties *)

(** ** An invariant rule

    A property of the state that survives the three ways the contract
    changes it holds after every successful call, at any depth of
    nesting, and so in every reachable state. *)

Section InvariantRule.

Variable sha256 : bytes -> bytes32.
Variable keccak256 : bytes -> bytes32.
Variable ecrecover : bytes32 -> Z -> bytes32 -> bytes32 -> address.

Variable P : State -> Prop.

Hypothesis P_lock : forall s sd v id sl ar h ts lt,
  P s -> 0 < v -> status (trades s !!! id) = Status.Uninitialized ->
  sl <> 0 -> ar <> 0 -> ts + lt <= UINT256_MAX ->
  P (locked_state id
       {| buyer := sd; seller := sl; arbiter := ar; amount := v; hashLock := h;
          timelock := ts + lt; status := Status.Locked |} s).

Hypothesis P_paying : forall s id st to,
  P s -> status (trades s !!! id) = Status.Locked ->
  Status.terminal st = true -> P (paying id st to s).

Hypothesis P_finish : forall s e, P s -> is_receipt e -> P (finish e s).

Lemma reenter_invariant (exec : Msg -> M unit) script :
  (forall m s u s', P s -> exec m s = inr (u, s') -> P s') ->
  forall s, P s -> P (reenter exec script s).
Proof using Type.
  intros Hexec. induction script as [|m script IH]; intros s Hs; [done|].
  cbn [reenter]. apply IH. unfold attempt.
  destruct (exec m s) as [e|[u s']] eqn:Hm; [done|]. cbn. by eapply Hexec.
Qed.

(** If the payment keeps [P], so does every function. *)
Lemma dispatch_invariant_from tr ts :
  (forall id st to s u s',
      P s -> status (trades s !!! id) = Status.Locked ->
      Status.terminal st = true ->
      tr to (amount (trades s !!! id)) (begin_payout id st s) = inr (u, s') ->
      P s') ->
  forall m s u s',
    P s -> dispatch sha256 keccak256 ecrecover tr ts m s = inr (u, s') -> P s'.
Proof using P_lock P_finish.
  intros Htr m s u s' Hs. unfold dispatch.
  destruct (call m) as [v id sl ar h lt|id p s1 s2|id r s1 s2|id].
  - intros Hl. apply lock_success in Hl as (? & ? & ? & ? & ? & ->).
    by apply P_lock.
  - rewrite withdrawWithPreimage_eq. cbn zeta.
    destruct (entered s); [done|].
    destruct (status (trades s !!! id)) eqn:Hst; try done. cbn [Status.eqb negb].
    destruct (negb _); [done|].
    destruct (ECDSA_signer _ _ s1); [|done].
    destruct (ECDSA_signer _ _ s2); [|done].
    destruct (negb _); [done|].
    destruct (tr _ _ _) as [e|[[] s_mid]] eqn:Hpay; [done|].
    intros [= <- <-]. apply P_finish; [|done].
    exact (Htr id Status.Completed _ _ _ _ Hs Hst eq_refl Hpay).
  - rewrite resolveDispute_eq. cbn zeta.
    destruct (entered s); [done|].
    destruct (status (trades s !!! id)) eqn:Hst; try done. cbn [Status.eqb negb].
    destruct (negb _); [done|].
    destruct (ECDSA_signer _ _ s1); [|done].
    destruct (ECDSA_signer _ _ s2); [|done].
    destruct (negb _); [done|].
    destruct (tr _ _ _) as [e|[[] s_mid]] eqn:Hpay; [done|].
    intros [= <- <-]. apply P_finish; [|done].
    exact (Htr id Status.Completed _ _ _ _ Hs Hst eq_refl Hpay).
  - rewrite refund_eq. cbn zeta.
    destruct (entered s); [done|].
    destruct (status (trades s !!! id)) eqn:Hst; try done. cbn [Status.eqb negb].
    destruct (negb _); [done|].
    destruct (tr _ _ _) as [e|[[] s_mid]] eqn:Hpay; [done|].
    intros [= <- <-]. apply P_finish; [|done].
    exact (Htr id Status.Refunded _ _ _ _ Hs Hst eq_refl Hpay).
Qed.

Lemma dispatch_invariant env d : forall m s u s',
  P s ->
  dispatch sha256 keccak256 ecrecover
    (transfer sha256 keccak256 ecrecover env d) (block_timestamp env) m s
  = inr (u, s') ->
  P s'.
Proof using P_lock P_paying P_finish.
  induction d as [|d IH]; apply dispatch_invariant_from.
  - intros id st to s u s' _ _ _. done.
  - intros id st to s u s' Hs Hl Hst. rewrite transfer_S.
    destruct (_ <? _); [done|].
    destruct (on_receive env to _) as [script|]; [|done].
    intros [= <- <-]. apply reenter_invariant; [exact IH|].
    by apply P_paying.
Qed.

Lemma reachable_invariant :
  P init -> forall s, reachable sha256 keccak256 ecrecover s -> P s.
Proof using P_lock P_paying P_finish.
  intros Hinit s. induction 1 as [|env m s _ IH]; [done|].
  destruct (transact_cases sha256 keccak256 ecrecover env m s)
    as [[e Hr]|(s' & Hr & Hd)]; rewrite Hr; cbn; [done|].
  by eapply dispatch_invariant.
Qed.

End InvariantRule.

(** ** Bookkeeping lemmas for logs *)

Lemma deposited_app l1 l2 : deposited (l1 ++ l2) = deposited l1 + deposited l2.
Proof.
  induction l1 as [|[[]|] l1 IH]; cbn [app deposited]; lia.
Qed.

Lemma paid_total_app l1 l2 : paid_total (l1 ++ l2) = paid_total l1 + paid_total l2.
Proof.
  induction l1 as [|[|] l1 IH]; cbn [app paid_total]; lia.
Qed.

Lemma locked_ids_app l1 l2 : locked_ids (l1 ++ l2) = locked_ids l1 ++ locked_ids l2.
Proof.
  induction l1 as [|[[]|] l1 IH]; cbn [app locked_ids]; by rewrite ?IH.
Qed.

Lemma locked_ids_receipt e : is_receipt e -> locked_ids [Emit e] = [].
Proof. by destruct e. Qed.

Lemma deposited_receipt e : is_receipt e -> deposited [Emit e] = 0.
Proof. by destruct e. Qed.

Lemma locked_event_in_ids id t l : locked_event_of id t ∈ l -> id ∈ locked_ids l.
Proof.
  induction l as [|e l IH]; [by intros ?%not_elem_of_nil|].
  intros [<-|Hin]%elem_of_cons.
  - cbn. by left.
  - specialize (IH Hin). destruct e as [[]|]; cbn [locked_ids]; [by right|done..].
Qed.

(** A trade read as [Locked] is stored, not a default. *)
Lemma lookup_locked (m : gmap Z Trade) id :
  status (m !!! id) <> Status.Uninitialized -> m !! id = Some (m !!! id).
Proof.
  rewrite lookup_total_alt. by destruct (m !! id).
Qed.

(** The count does not depend on the order of two recovered signers. *)
Lemma count_signers_swap t a b :
  a <> 0 -> b <> 0 ->
  (2 <=? count_signers [a; b] [buyer t; seller t; arbiter t] 0 0) =
  (2 <=? count_signers [b; a] [buyer t; seller t; arbiter t] 0 0).
Proof.
  intros Ha Hb. apply eq_true_iff_eq.
  rewrite (count_signers_threshold t a b Ha), (count_signers_threshold t b a Hb).
  split; intros (? & ? & ?); repeat split; congruence.
Qed.

(** With the guard set, every call of a resolving function is answered
    by the guard's revert, throughout the recipient's script. *)
Lemma reentries_guarded sha256 keccak256 ecrecover tr ts script s :
  entered s = true ->
  Forall (fun '(s_i, m_i, out_i) =>
            entered s_i = true /\
            (is_lock (call m_i) = false ->
             out_i = Reverted ReentrancyGuardReentrantCall /\
             snd (attempt (dispatch sha256 keccak256 ecrecover tr ts m_i) s_i) = s_i))
         (reentries (dispatch sha256 keccak256 ecrecover tr ts) script s).
Proof.
  revert s. induction script as [|m script IH]; intros s He; cbn [reentries].
  - constructor.
  - constructor.
    + split; [done|]. intros Hl. unfold attempt.
      by rewrite (guarded_call_reverts sha256 keccak256 ecrecover tr ts m s He Hl).
    + apply IH.
      destruct (guarded_call sha256 keccak256 ecrecover tr ts m s He) as [Hg _].
      by rewrite (grows_entered _ _ Hg).
Qed.

(** Among the effects of one successful call, the only event that is not
    a [Locked] event is the one the call ends with. *)
Lemma receipt_among_new pre evs rc e :
  pre = [] \/ (exists a v, pre = [Transfer a v]) ->
  Forall is_emit_locked evs ->
  is_receipt e ->
  Emit e ∈ pre ++ evs ++ [Emit rc] -> e = rc.
Proof.
  intros Hpre Hall He [Hin|[Hin|Hin]%elem_of_app]%elem_of_app.
  - destruct Hpre as [->|(a & v & ->)].
    + by apply not_elem_of_nil in Hin.
    + by apply list_elem_of_singleton in Hin.
  - rewrite Forall_forall in Hall. apply Hall in Hin. by destruct e.
  - apply list_elem_of_singleton in Hin. congruence.
Qed.

Section Further.

Variable sha256 : bytes -> bytes32.
Variable keccak256 : bytes -> bytes32.
Variable ecrecover : bytes32 -> Z -> bytes32 -> bytes32 -> address.

Let transact' := transact sha256 keccak256 ecrecover.
Let reachable' := reachable sha256 keccak256 ecrecover.
Let run' := run sha256 keccak256 ecrecover.
Let recovered := ECDSA_signer ecrecover.

(** X1. Between transactions the guard is clear and the contract's
    balance is exactly the sum of the amounts of its [Locked] trades:
    value comes in with [lock] only and leaves with a payout only. *)
Theorem balance_is_escrow s :
  reachable' s ->
  entered s = false /\ balance s = locked_total (trades s).
Proof using Type.
  intros Hs. split; [by destruct (reachable_inv _ _ _ _ Hs)|].
  revert s Hs.
  apply (reachable_invariant sha256 keccak256 ecrecover
           (fun s => balance s = locked_total (trades s))).
  - intros s sd v id sl ar h ts lt Hs Hv Hu _ _ _. cbn.
    rewrite locked_total_insert, Hs. unfold locked_amount. rewrite Hu. cbn. lia.
  - intros s id st to Hs Hl Hst. cbn.
    rewrite locked_total_insert, Hs. unfold locked_amount. rewrite Hl. cbn.
    destruct st; try done; lia.
  - intros s e Hs _. exact Hs.
  - cbn. unfold locked_total. by rewrite map_fold_empty.
Qed.

(** X2. Conservation: in every reachable state the deposits recorded by
    the [Locked] events equal the balance plus the payments made. *)
Theorem deposits_are_conserved s :
  reachable' s ->
  deposited (effects s) = balance s + paid_total (effects s).
Proof using Type.
  revert s.
  apply (reachable_invariant sha256 keccak256 ecrecover
           (fun s => deposited (effects s) = balance s + paid_total (effects s))).
  - intros s sd v id sl ar h ts lt Hs _ _ _ _ _. cbn.
    rewrite deposited_app, paid_total_app, Hs. cbn. lia.
  - intros s id st to Hs _ _. cbn.
    rewrite deposited_app, paid_total_app, Hs. cbn. lia.
  - intros s e Hs He. cbn.
    rewrite deposited_app, paid_total_app, Hs, (deposited_receipt e He). cbn. lia.
  - done.
Qed.

(** X3. Every trade of a reachable state is either absent, and then
    reads as the all-zero record, or as [lock] stores it: positive
    amount, non-zero seller and arbiter, timelock within [uint256]. *)
Theorem stored_trades_well_formed s id :
  reachable' s ->
  let t := trades s !!! id in
  (status t = Status.Uninitialized -> t = zero_trade) /\
  (status t <> Status.Uninitialized -> well_formed t).
Proof using Type.
  intros Hs.
  assert (map_Forall (fun _ t => well_formed t) (trades s)) as Hwf.
  { revert s Hs.
    apply (reachable_invariant sha256 keccak256 ecrecover
             (fun s => map_Forall (fun _ t => well_formed t) (trades s))).
    - intros s sd v id' sl ar h ts lt Hs Hv _ Hsl Har Hov. cbn.
      apply map_Forall_insert_2; [|done]. by repeat split.
    - intros s id' st to Hs Hl Hst. cbn.
      apply map_Forall_insert_2; [|done].
      assert (trades s !! id' = Some (trades s !!! id')) as Hin
        by (apply lookup_locked; congruence).
      destruct (Hs _ _ Hin) as (_ & ? & ? & ? & ?).
      repeat split; try done. cbn. by destruct st.
    - intros s e Hs _. exact Hs.
    - apply map_Forall_empty. }
  cbn zeta. rewrite lookup_total_alt.
  destruct (trades s !! id) as [t|] eqn:Ht; cbn.
  - split; [|intros _; by apply (Hwf id)].
    intros Hu. by destruct (Hwf id t Ht) as [? _].
  - done.
Qed.

(** X4. Every trade id is locked at most once: the [Locked] events of
    the log carry pairwise different ids, these are exactly the ids of
    the trades that exist, and the event of each existing trade shows its
    buyer, seller, amount, hash lock and timelock as stored. *)
Theorem locked_events_match_trades s :
  reachable' s ->
  NoDup (locked_ids (effects s)) /\
  forall id,
    (id ∈ locked_ids (effects s) <->
     status (trades s !!! id) <> Status.Uninitialized) /\
    (status (trades s !!! id) <> Status.Uninitialized ->
     locked_event_of id (trades s !!! id) ∈ effects s).
Proof using Type.
  intros Hs.
  assert (NoDup (locked_ids (effects s)) /\
          (forall id, id ∈ locked_ids (effects s) ->
                      status (trades s !!! id) <> Status.Uninitialized) /\
          (forall id, status (trades s !!! id) <> Status.Uninitialized ->
                      locked_event_of id (trades s !!! id) ∈ effects s))
    as (Hnd & Hids & Hev).
  { revert s Hs.
    apply (reachable_invariant sha256 keccak256 ecrecover
             (fun s =>
                NoDup (locked_ids (effects s)) /\
                (forall id, id ∈ locked_ids (effects s) ->
                            status (trades s !!! id) <> Status.Uninitialized) /\
                (forall id, status (trades s !!! id) <> Status.Uninitialized ->
                            locked_event_of id (trades s !!! id) ∈ effects s))).
    - intros s sd v id sl ar h ts lt (Hnd & Hids & Hev) _ Hu _ _ _. cbn.
      rewrite locked_ids_app. cbn [locked_ids]. split; [|split].
      + apply NoDup_app. split; [done|]. split; [|apply NoDup_singleton].
        intros j Hj ->%list_elem_of_singleton. by apply Hids in Hj.
      + intros j Hj. destruct (decide (id = j)) as [->|Hne].
        * by rewrite lookup_total_insert_eq.
        * rewrite lookup_total_insert_ne by done. apply Hids.
          apply elem_of_app in Hj as [Hj|Hj%list_elem_of_singleton]; congruence.
      + intros j. destruct (decide (id = j)) as [->|Hne].
        * rewrite lookup_total_insert_eq. intros _.
          apply elem_of_app. right. by apply list_elem_of_singleton.
        * rewrite lookup_total_insert_ne by done. intros Hj.
          apply elem_of_app. left. by apply Hev.
    - intros s id st to (Hnd & Hids & Hev) Hl Hst. cbn.
      rewrite locked_ids_app. cbn [locked_ids]. rewrite app_nil_r.
      split; [done|]. split.
      + intros j Hj. destruct (decide (id = j)) as [->|Hne].
        * rewrite lookup_total_insert_eq. cbn. by destruct st.
        * rewrite lookup_total_insert_ne by done. by apply Hids.
      + intros j. destruct (decide (id = j)) as [->|Hne].
        * rewrite lookup_total_insert_eq. intros _.
          apply elem_of_app. left.
          change (locked_event_of j (with_status st (trades s !!! j)))
            with (locked_event_of j (trades s !!! j)).
          apply Hev. congruence.
        * rewrite lookup_total_insert_ne by done. intros Hj.
          apply elem_of_app. left. by apply Hev.
    - intros s e (Hnd & Hids & Hev) He. cbn.
      rewrite locked_ids_app, (locked_ids_receipt e He), app_nil_r.
      split; [done|]. split; [done|].
      intros j Hj. apply elem_of_app. left. by apply Hev.
    - cbn. split; [apply NoDup_nil_2|]. split; [by intros ? ?%not_elem_of_nil|].
      intros id. by rewrite lookup_total_empty. }
  split; [done|]. intros id. split; [|by apply Hev].
  split; [by apply Hids|]. intros Hne.
  eapply locked_event_in_ids. by apply Hev.
Qed.

(** X5. The log tells which trades are finished: a [Refunded] event
    for a trade id is in the log exactly when that trade is [Refunded],
    and it names the trade's buyer; a [Withdrawn] event for a trade id is
    in the log exactly when that trade is [Completed]. *)
Theorem terminal_events_match_trades s :
  reachable' s ->
  forall id,
    let t := trades s !!! id in
    (forall b, Emit (Refunded id b) ∈ effects s ->
               status t = Status.Refunded /\ b = buyer t) /\
    (status t = Status.Refunded -> Emit (Refunded id (buyer t)) ∈ effects s) /\
    (forall r mth, Emit (Withdrawn id r mth) ∈ effects s ->
                   status t = Status.Completed) /\
    (status t = Status.Completed ->
     exists r mth, Emit (Withdrawn id r mth) ∈ effects s).
Proof using Type.
  induction 1 as [|env m s Hs IH]; intros id; cbn zeta.
  { cbn. rewrite lookup_total_empty. cbn.
    split; [by intros b ?%not_elem_of_nil|]. split; [done|].
    split; [by intros r mth ?%not_elem_of_nil|done]. }
  destruct (reachable_inv _ _ _ _ Hs) as [He _].
  destruct (transact_cases sha256 keccak256 ecrecover env m s)
    as [[e Hr]|(s' & Hr & Hd)]; rewrite Hr; cbn [snd]; [apply IH|].
  apply success_step in Hd
    as (_ & _ & pre & evs & Hev & Hall & Hpre & Hst & Hid & Hfin & Hj); [|done].
  assert (pre = [] \/ (exists a v, pre = [Transfer a v])) as Hpre'
    by (rewrite Hpre; destruct (is_lock (call m)); eauto).
  pose proof (fun e He Hin =>
                receipt_among_new pre evs
                  (receipt (call m) (trades s' !!! target (call m)))
                  e Hpre' Hall He Hin) as Hnew.
  rewrite Hev.
  destruct (decide (id = target (call m))) as [->|Hne].
  - destruct (IH (target (call m))) as (IH1 & IH2 & IH3 & IH4).
    assert (status (trades s !!! target (call m)) <> Status.Refunded /\
            status (trades s !!! target (call m)) <> Status.Completed) as [Hnr Hnc]
      by (rewrite Hst; by destruct (is_lock (call m))).
    split; [|split; [|split]].
    + intros b [Hin|Hin]%elem_of_app; [by apply IH1 in Hin as [? _]|].
      apply Hnew in Hin; [|done]. rewrite Hfin.
      destruct (call m); cbn in Hin; try discriminate.
      by injection Hin as ->.
    + rewrite Hfin. intros Hf.
      apply elem_of_app; right. apply elem_of_app; right. apply elem_of_app; right.
      apply list_elem_of_singleton. by destruct (call m).
    + intros r mth [Hin|Hin]%elem_of_app; [by apply IH3 in Hin|].
      apply Hnew in Hin; [|done]. rewrite Hfin.
      by destruct (call m).
    + rewrite Hfin. intros Hf.
      destruct (call m) as [|id' p s1 s2|id' r s1 s2|]; try done.
      * eexists _, _. apply elem_of_app; right. apply elem_of_app; right.
        apply elem_of_app; right. by apply list_elem_of_singleton.
      * eexists _, _. apply elem_of_app; right. apply elem_of_app; right.
        apply elem_of_app; right. by apply list_elem_of_singleton.
  - destruct (IH id) as (IH1 & IH2 & IH3 & IH4).
    assert (forall e, is_receipt e -> Emit e ∈ pre ++ evs ++
                [Emit (receipt (call m) (trades s' !!! target (call m)))] ->
              match e with
              | Refunded j _ | Withdrawn j _ _ => j = target (call m)
              | _ => True
              end) as Hrc.
    { intros e0 He0 Hin. rewrite (Hnew e0 He0 Hin). by destruct (call m). }
    destruct (Hj id Hne) as [->|(Hu & Hl & _)].
    + split; [|split; [|split]].
      * intros b [Hin|Hin]%elem_of_app; [by apply IH1|].
        by apply Hrc in Hin.
      * intros Hf. apply elem_of_app; left. by apply IH2.
      * intros r mth [Hin|Hin]%elem_of_app; [by eapply IH3|].
        by apply Hrc in Hin.
      * intros Hf. destruct (IH4 Hf) as (r & mth & Hin).
        exists r, mth. apply elem_of_app; by left.
    + rewrite Hl. split; [|split; [|split]]; try done.
      * intros b [Hin|Hin]%elem_of_app.
        -- apply IH1 in Hin as [? _]. congruence.
        -- by apply Hrc in Hin.
      * intros r mth [Hin|Hin]%elem_of_app.
        -- apply IH3 in Hin. congruence.
        -- by apply Hrc in Hin.
Qed.

(** X6. What [lock] stored never changes: along any run of
    transactions an existing trade keeps its buyer, seller, arbiter,
    amount, hash lock and timelock; only its status can change, and only
    from [Locked] to [Completed] or [Refunded]. *)
Theorem trade_terms_are_fixed s id txs :
  reachable' s ->
  let t := trades s !!! id in
  let t' := trades (run' txs s) !!! id in
  status t <> Status.Uninitialized ->
  t' = with_status (status t') t /\
  (status t' = status t \/
   (status t = Status.Locked /\ Status.terminal (status t') = true)).
Proof using Type.
  revert s. induction txs as [|[env m] txs IH]; intros s Hs; cbn zeta.
  { intros _. split; [by destruct (trades s !!! id)|by left]. }
  intros Hne.
  change (run' ((env, m) :: txs) s) with (run' txs (snd (transact' env m s))).
  destruct (reachable_inv _ _ _ _ Hs) as [He _].
  assert (reachable' (snd (transact' env m s))) as Hs' by (by constructor).
  pose proof (transact_transitions sha256 keccak256 ecrecover env m s id He) as Htr.
  cbn zeta in Htr. fold transact' in Htr.
  specialize (IH _ Hs'). cbn zeta in IH.
  set (s1 := snd (transact' env m s)) in *.
  set (t' := trades (run' txs s1) !!! id) in *.
  destruct Htr as [Heq|[(Hu & _)|(_ & _ & Hl & Hst & Heq)]]; [|done|].
  - rewrite Heq in IH. by apply IH.
  - rewrite Heq in IH.
    assert (Status.terminal (final_status (call m)) = true) as Hterm
      by (by destruct (call m)).
    destruct IH as [IHa IHb]; [cbn; by destruct (call m)|].
    split; [by rewrite IHa|]. right. split; [done|].
    cbn in IHb. destruct IHb as [Hb|[Hb _]]; [by rewrite Hb|].
    by destruct (call m).
Qed.

(** X7. Swapping [_sig1] and [_sig2] changes neither the state nor
    whether [withdrawWithPreimage] and [resolveDispute] succeed, and
    not the outcome either as long as one of the two signatures
    recovers a signer.  When neither does, and the checks before the
    signatures pass, each order reverts with the library error of its
    own first signature. *)
Theorem signature_order_is_irrelevant env sd id s :
  reachable' s ->
  let t := trades s !!! id in
  (forall p sig1 sig2,
      let h := preimage_digest keccak256 id p in
      let a := transact' env
                 {| sender := sd; call := CallWithdrawWithPreimage id p sig1 sig2 |} s in
      let b := transact' env
                 {| sender := sd; call := CallWithdrawWithPreimage id p sig2 sig1 |} s in
      snd a = snd b /\
      (fst a = Success <-> fst b = Success) /\
      (is_Some (recovered h sig1) \/ is_Some (recovered h sig2) -> a = b) /\
      (status t = Status.Locked -> sha256 (be_bytes 32 p) = hashLock t ->
       recovered h sig1 = None -> recovered h sig2 = None ->
       fst a = Reverted (ECDSA_revert ecrecover h sig1) /\
       fst b = Reverted (ECDSA_revert ecrecover h sig2))) /\
  (forall r sig1 sig2,
      let h := dispute_digest keccak256 id r in
      let a := transact' env
                 {| sender := sd; call := CallResolveDispute id r sig1 sig2 |} s in
      let b := transact' env
                 {| sender := sd; call := CallResolveDispute id r sig2 sig1 |} s in
      snd a = snd b /\
      (fst a = Success <-> fst b = Success) /\
      (is_Some (recovered h sig1) \/ is_Some (recovered h sig2) -> a = b) /\
      (status t = Status.Locked -> r = buyer t \/ r = seller t ->
       recovered h sig1 = None -> recovered h sig2 = None ->
       fst a = Reverted (ECDSA_revert ecrecover h sig1) /\
       fst b = Reverted (ECDSA_revert ecrecover h sig2))).
Proof using Type.
  intros Hs t. split.
  - intros p sig1 sig2 h a b. subst a b. unfold transact'.
    rewrite !withdrawWithPreimage_outcome by done. cbn zeta.
    fold t h recovered. unfold signature_error. fold recovered.
    destruct (status t) eqn:Hst; cbn [Status.eqb negb].
    all: try (repeat split; done).
    destruct (Z.eqb_spec (sha256 (be_bytes 32 p)) (hashLock t)) as [Hp|Hp];
      cbn [negb]; [|repeat split; done].
    destruct (recovered h sig1) as [x|] eqn:H1;
      destruct (recovered h sig2) as [y|] eqn:H2; cbn [fst snd].
    + rewrite (orb_comm (x =? buyer t)), (orb_comm (x =? seller t)).
      repeat split; done.
    + repeat split; done.
    + repeat split; done.
    + repeat split; try done. by intros [[? [=]]|[? [=]]].
  - intros r sig1 sig2 h a b. subst a b. unfold transact'.
    rewrite !resolveDispute_outcome by done. cbn zeta.
    fold t h recovered. unfold signature_error. fold recovered.
    destruct (status t) eqn:Hst; cbn [Status.eqb negb].
    all: try (repeat split; done).
    destruct (Z.eqb_spec r (buyer t)) as [Hb|Hb];
      destruct (Z.eqb_spec r (seller t)) as [Hsl|Hsl]; cbn [orb negb].
    4:{ do 3 (split; [done|]). by intros _ [?|?]. }
    all: destruct (recovered h sig1) as [x|] eqn:H1;
      destruct (recovered h sig2) as [y|] eqn:H2; cbn [fst snd];
      [rewrite (count_signers_swap _ x y) by (by eapply tryRecover_nonzero);
       repeat split; done
      |repeat split; done
      |repeat split; done
      |repeat split; try done; by intros [[? [=]]|[? [=]]]].
Qed.

(** The state a successful [lock] transaction leaves. *)
Lemma lock_success_state env sd v id sl ar h lt s :
  fst (transact' env {| sender := sd; call := CallLock v id sl ar h lt |} s) = Success ->
  let s1 := snd (transact' env {| sender := sd; call := CallLock v id sl ar h lt |} s) in
  trades s1 !!! id =
    {| buyer := sd; seller := sl; arbiter := ar; amount := v; hashLock := h;
       timelock := block_timestamp env + lt; status := Status.Locked |} /\
  balance s1 = balance s + v.
Proof using Type.
  unfold transact'. rewrite lock_outcome.
  destruct (negb (0 <? v)); [done|].
  destruct (negb (Status.eqb _ _)); [done|].
  destruct (negb (negb _ && _)); [done|].
  destruct (UINT256_MAX <? _); [done|].
  intros _. cbn. by rewrite lookup_total_insert_eq.
Qed.

(** X8. A deposit can be taken back after the lock time and not before:
    once [lock] succeeded at time [T] with lock time [L], a [refund]
    called by anyone at a time before [T + L] reverts with "Timelock not
    expired"; from [T + L] on, if the depositor accepts the payment, it
    succeeds, pays the depositor exactly the deposit and ends with the
    event [Refunded(tradeId, depositor)]. *)
Theorem deposit_refundable env1 env2 sd v id sl ar h lt caller s :
  reachable' s ->
  fst (transact' env1 {| sender := sd; call := CallLock v id sl ar h lt |} s) = Success ->
  let s1 := snd (transact' env1 {| sender := sd; call := CallLock v id sl ar h lt |} s) in
  let r := transact' env2 {| sender := caller; call := CallRefund id |} s1 in
  (block_timestamp env2 < block_timestamp env1 + lt ->
   r = (Reverted TimelockNotExpired, s1)) /\
  (block_timestamp env1 + lt <= block_timestamp env2 ->
   is_Some (on_receive env2 sd v) ->
   fst r = Success /\
   status (trades (snd r) !!! id) = Status.Refunded /\
   exists evs,
     effects (snd r) =
       effects s1 ++ Transfer sd v :: evs ++ [Emit (Refunded id sd)] /\
     Forall is_emit_locked evs).
Proof using Type.
  intros Hs Hok s1 r.
  assert (reachable' s1) as Hs1 by (by constructor).
  destruct (lock_success_state _ _ _ _ _ _ _ _ _ Hok) as [Ht _]. fold s1 in Ht.
  subst r. unfold transact'. rewrite refund_outcome by done. cbn zeta.
  rewrite Ht. cbn [status buyer amount timelock Status.eqb negb].
  destruct (Z.leb_spec (block_timestamp env1 + lt) (block_timestamp env2));
    cbn [negb]; (split; [intros; try lia; done|]).
  - intros _ [script ->]. cbn [fst snd]. split; [done|]. split.
    + rewrite paid_out_trade by done. by rewrite Ht.
    + destruct (paid_out_effects sha256 keccak256 ecrecover env2 id
                  Status.Refunded sd script (Refunded id sd) s1) as (evs & He & Hall).
      exists evs. rewrite He, Ht. done.
  - intros; lia.
Qed.

(** X9. The normal path end to end: once [lock] succeeded with hash
    lock [sha256(preimage)], a [withdrawWithPreimage] with that preimage
    and signatures of the depositor and of the seller, sent by anyone at
    any time, succeeds if the seller accepts the payment; it pays the
    seller exactly the deposit and ends with [Withdrawn(tradeId, seller,
    "Preimage + MultiSig")]; when the seller makes no call back, the
    contract's balance is what it was before the deposit. *)
Theorem deposit_released_by_preimage env1 env2 sd v id sl ar lt p sig1 sig2 caller s :
  reachable' s ->
  let h := sha256 (be_bytes 32 p) in
  fst (transact' env1 {| sender := sd; call := CallLock v id sl ar h lt |} s) = Success ->
  let s1 := snd (transact' env1 {| sender := sd; call := CallLock v id sl ar h lt |} s) in
  let d := preimage_digest keccak256 id p in
  recovered d sig1 = Some sd ->
  recovered d sig2 = Some sl ->
  is_Some (on_receive env2 sl v) ->
  let r := transact' env2
             {| sender := caller; call := CallWithdrawWithPreimage id p sig1 sig2 |} s1 in
  fst r = Success /\
  status (trades (snd r) !!! id) = Status.Completed /\
  (exists evs,
     effects (snd r) =
       effects s1 ++ Transfer sl v :: evs ++
         [Emit (Withdrawn id sl "Preimage + MultiSig")] /\
     Forall is_emit_locked evs) /\
  (on_receive env2 sl v = Some [] -> balance (snd r) = balance s).
Proof using Type.
  intros Hs h Hok s1 d H1 H2 [script Hacc] r.
  assert (reachable' s1) as Hs1 by (by constructor).
  destruct (lock_success_state _ _ _ _ _ _ _ _ _ Hok) as [Ht Hb]. fold s1 in Ht, Hb.
  subst r. unfold transact'. rewrite withdrawWithPreimage_outcome by done.
  cbn zeta. fold d recovered. rewrite Ht, H1, H2.
  cbn [status buyer seller amount hashLock Status.eqb negb].
  unfold h. rewrite !Z.eqb_refl, Hacc. cbn [orb andb negb fst snd].
  rewrite orb_true_r. cbn [andb negb fst snd].
  split; [done|]. split; [|split].
  - rewrite paid_out_trade by done. by rewrite Ht.
  - destruct (paid_out_effects sha256 keccak256 ecrecover env2 id
                Status.Completed sl script
                (Withdrawn id sl "Preimage + MultiSig") s1) as (evs & He & Hall).
    exists evs. rewrite He, Ht. done.
  - intros [= ->]. unfold paid_out. cbn. rewrite Ht, Hb. cbn. lia.
Qed.

(** X10. Arbitration end to end: once [lock] succeeded, a
    [resolveDispute] naming the depositor or the seller as recipient,
    with signatures of two different parties among depositor, seller and
    arbiter, sent by anyone at any time, succeeds if the recipient
    accepts the payment; it pays the recipient exactly the deposit and
    ends with [Withdrawn(tradeId, recipient, "Arbitration")]. *)
Theorem deposit_awarded_by_arbitration
    env1 env2 sd v id sl ar h lt rcp sig1 sig2 a b caller s :
  reachable' s ->
  fst (transact' env1 {| sender := sd; call := CallLock v id sl ar h lt |} s) = Success ->
  let s1 := snd (transact' env1 {| sender := sd; call := CallLock v id sl ar h lt |} s) in
  let d := dispute_digest keccak256 id rcp in
  rcp = sd \/ rcp = sl ->
  recovered d sig1 = Some a ->
  recovered d sig2 = Some b ->
  a <> b ->
  a = sd \/ a = sl \/ a = ar ->
  b = sd \/ b = sl \/ b = ar ->
  is_Some (on_receive env2 rcp v) ->
  let r := transact' env2
             {| sender := caller; call := CallResolveDispute id rcp sig1 sig2 |} s1 in
  fst r = Success /\
  status (trades (snd r) !!! id) = Status.Completed /\
  exists evs,
    effects (snd r) =
      effects s1 ++ Transfer rcp v :: evs ++ [Emit (Withdrawn id rcp "Arbitration")] /\
    Forall is_emit_locked evs.
Proof using Type.
  intros Hs Hok s1 d Hr H1 H2 Hab Ha Hb [script Hacc] r.
  assert (reachable' s1) as Hs1 by (by constructor).
  destruct (lock_success_state _ _ _ _ _ _ _ _ _ Hok) as [Ht _]. fold s1 in Ht.
  subst r. unfold transact'. rewrite resolveDispute_outcome by done.
  cbn zeta. fold d recovered. rewrite H1, H2.
  pose proof (tryRecover_nonzero _ _ _ _ H1) as Hnz.
  assert ((2 <=? count_signers [a; b]
                   [buyer (trades s1 !!! id); seller (trades s1 !!! id);
                    arbiter (trades s1 !!! id)] 0 0) = true) as ->.
  { apply count_signers_threshold; [done|]. unfold participant.
    rewrite Ht. cbn. done. }
  rewrite Ht. cbn [status buyer seller amount Status.eqb negb].
  assert (((rcp =? sd) || (rcp =? sl)) = true) as ->
    by (apply orb_true_iff; rewrite !Z.eqb_eq; exact Hr).
  rewrite Hacc. cbn [negb fst snd].
  split; [done|]. split.
  - rewrite paid_out_trade by done. by rewrite Ht.
  - destruct (paid_out_effects sha256 keccak256 ecrecover env2 id
                Status.Completed rcp script
                (Withdrawn id rcp "Arbitration") s1) as (evs & He & Hall).
    exists evs. rewrite He, Ht. done.
Qed.

(** X11. The cheap checks come first: on a [Locked] trade a wrong
    preimage is rejected with "Invalid preimage", and a recipient that is
    neither buyer nor seller with "Invalid recipient", whatever the two
    signatures are, well-formed or not; nothing changes. *)
Theorem rejected_before_signatures env sd id s :
  reachable' s ->
  let t := trades s !!! id in
  status t = Status.Locked ->
  (forall p sig1 sig2,
      sha256 (be_bytes 32 p) <> hashLock t ->
      transact' env {| sender := sd; call := CallWithdrawWithPreimage id p sig1 sig2 |} s
      = (Reverted InvalidPreimage, s)) /\
  (forall r sig1 sig2,
      r <> buyer t -> r <> seller t ->
      transact' env {| sender := sd; call := CallResolveDispute id r sig1 sig2 |} s
      = (Reverted InvalidRecipient, s)).
Proof using Type.
  intros Hs t Hl. split.
  - intros p sig1 sig2 Hp. unfold transact'.
    rewrite withdrawWithPreimage_outcome by done. cbn zeta. fold t.
    rewrite Hl. cbn [Status.eqb negb].
    by destruct (Z.eqb_spec (sha256 (be_bytes 32 p)) (hashLock t)).
  - intros r sig1 sig2 Hb Hsl. unfold transact'.
    rewrite resolveDispute_outcome by done. cbn zeta. fold t.
    rewrite Hl. cbn [Status.eqb negb].
    destruct (Z.eqb_spec r (buyer t)); [done|].
    by destruct (Z.eqb_spec r (seller t)).
Qed.

(** X12. A signature from which no signer is recovered makes the call
    revert once the checks before it have passed: on a [Locked] trade,
    for [withdrawWithPreimage] with the right preimage and for
    [resolveDispute] with a valid recipient, whatever the other
    signature is.  The revert is the ECDSA library's error for the first
    of the two signatures that is rejected:
    [ECDSAInvalidSignatureLength(length)] when it is not 65 bytes long,
    else [ECDSAInvalidSignatureS(s)] when its [s] exceeds half the group
    order, else [ECDSAInvalidSignature()], the precompile having
    recovered the zero address; and these are the only ways a signature
    is rejected. *)
Theorem unrecoverable_signature_rejected env sd id s :
  reachable' s ->
  let t := trades s !!! id in
  status t = Status.Locked ->
  (forall p sig1 sig2,
      let h := preimage_digest keccak256 id p in
      sha256 (be_bytes 32 p) = hashLock t ->
      recovered h sig1 = None \/ recovered h sig2 = None ->
      transact' env {| sender := sd; call := CallWithdrawWithPreimage id p sig1 sig2 |} s
      = (Reverted (ECDSA_revert ecrecover h
                     (match recovered h sig1 with
                      | Some _ => sig2
                      | None => sig1
                      end)), s)) /\
  (forall r sig1 sig2,
      let h := dispute_digest keccak256 id r in
      r = buyer t \/ r = seller t ->
      recovered h sig1 = None \/ recovered h sig2 = None ->
      transact' env {| sender := sd; call := CallResolveDispute id r sig1 sig2 |} s
      = (Reverted (ECDSA_revert ecrecover h
                     (match recovered h sig1 with
                      | Some _ => sig2
                      | None => sig1
                      end)), s)) /\
  (forall h sig,
      let len := Z.of_nat (length sig) in
      let r_ := be_value (firstn 32 sig) in
      let s_ := be_value (firstn 32 (skipn 32 sig)) in
      let v_ := nth 64 sig 0 in
      (recovered h sig = None <->
       len <> 65 \/ HALF_ORDER < s_ \/ ecrecover h v_ r_ s_ = 0) /\
      ECDSA_revert ecrecover h sig =
        if negb (len =? 65) then ECDSAInvalidSignatureLength len
        else if HALF_ORDER <? s_ then ECDSAInvalidSignatureS s_
        else ECDSAInvalidSignature).
Proof using Type.
  intros Hs t Hl. split; [|split].
  - intros p sig1 sig2 h Hp Hbad. unfold transact'.
    rewrite withdrawWithPreimage_outcome by done. cbn zeta.
    fold t h recovered. unfold signature_error. fold recovered.
    rewrite Hl, Hp, Z.eqb_refl. cbn [Status.eqb negb].
    destruct (recovered h sig1) as [x|] eqn:H1; [|done].
    destruct Hbad as [?| ->]; done.
  - intros r sig1 sig2 h Hr Hbad. unfold transact'.
    rewrite resolveDispute_outcome by done. cbn zeta.
    fold t h recovered. unfold signature_error. fold recovered.
    rewrite Hl. cbn [Status.eqb negb].
    assert (((r =? buyer t) || (r =? seller t)) = true) as ->
      by (apply orb_true_iff; rewrite !Z.eqb_eq; exact Hr).
    cbn [negb].
    destruct (recovered h sig1) as [x|] eqn:H1; [|done].
    destruct Hbad as [?| ->]; done.
  - intros h sig len r_ s_ v_. subst recovered.
    unfold ECDSA_revert, ECDSA_signer, ECDSA_tryRecover. fold len r_ s_ v_.
    destruct (Z.eqb_spec len 65) as [Hlen|Hlen]; cbn [negb].
    2:{ split; [|done]. split; [by left|done]. }
    destruct (Z.ltb_spec HALF_ORDER s_) as [Hs_|Hs_].
    { split; [|done]. split; [by right; left|done]. }
    destruct (Z.eqb_spec (ecrecover h v_ r_ s_) 0) as [Hz|Hz].
    { split; [|done]. split; [by right; right|done]. }
    split; [|done]. split; [done|]. intros [?|[?|?]]; [done|lia|done].
Qed.

(** X13. A payee that refuses the payment blocks the payout: whatever
    else holds, the call reverts and the state, the trade included, is as
    before.  In particular a [refund] of a [Locked] trade past its
    timelock reverts when the buyer refuses to be paid. *)
Theorem refused_payment_blocks_payout env m s :
  reachable' s ->
  is_lock (call m) = false ->
  let t := trades s !!! target (call m) in
  on_receive env (payee (call m) t) (amount t) = None ->
  (exists e, transact' env m s = (Reverted e, s)) /\
  (forall id, call m = CallRefund id ->
              status t = Status.Locked ->
              timelock t <= block_timestamp env ->
              transact' env m s = (Reverted TransferFailed, s)).
Proof using Type.
  intros Hs Hl t Hno. split.
  - destruct (transact_cases sha256 keccak256 ecrecover env m s)
      as [[e Hr]|(s' & Hr & Hd)]; [by exists e|].
    apply resolving_success in Hd as (_ & _ & s_mid & Hpay & _); [|done].
    fold t in Hpay. rewrite max_depth_S, transfer_S, Hno in Hpay.
    by destruct (_ <? _).
  - intros id Hc Hst Hexp. destruct m as [sd c]. cbn in Hc. subst c.
    unfold transact'. rewrite refund_outcome by done. cbn zeta.
    cbn in t, Hno. fold t. rewrite Hst. cbn [Status.eqb negb].
    assert ((timelock t <=? block_timestamp env) = true) as ->
      by (by apply Z.leb_le).
    cbn [negb]. by rewrite Hno.
Qed.

(** X14. While a payout is under way the guard answers every call to
    [withdrawWithPreimage], [resolveDispute] and [refund], whatever trade
    it names, with its revert and leaves the state alone; so the calls a
    recipient makes back can at most lock new trades, and a trade that
    existed before the transaction, other than the one paid out, is
    unchanged after it. *)
Theorem no_payout_inside_a_payout env m s :
  reachable' s ->
  is_lock (call m) = false ->
  fst (transact' env m s) = Success ->
  let id := target (call m) in
  let t := trades s !!! id in
  exists script,
    on_receive env (payee (call m) t) (amount t) = Some script /\
    Forall (fun '(s_i, m_i, out_i) =>
              is_lock (call m_i) = false ->
              out_i = Reverted ReentrancyGuardReentrantCall /\
              snd (attempt (reentrant_call sha256 keccak256 ecrecover env m_i) s_i) = s_i)
           (reentries (reentrant_call sha256 keccak256 ecrecover env) script
              (paying id (final_status (call m)) (payee (call m) t) s)) /\
    forall j, j <> id ->
              status (trades s !!! j) <> Status.Uninitialized ->
              trades (snd (transact' env m s)) !!! j = trades s !!! j.
Proof using Type.
  intros Hs Hl Hok id t.
  destruct (reachable_inv _ _ _ _ Hs) as [He _].
  pose proof (transact_success sha256 keccak256 ecrecover env m s Hok) as Hd.
  pose proof Hd as Hd'.
  apply resolving_success in Hd' as (_ & _ & s_mid & Hpay & _); [|done].
  fold id t in Hpay. rewrite max_depth_S, transfer_S in Hpay.
  destruct (_ <? _); [done|].
  destruct (on_receive env _ _) as [script|] eqn:Hacc; [|done].
  exists script. split; [done|]. split.
  - pose proof (reentries_guarded sha256 keccak256 ecrecover
                  (transfer sha256 keccak256 ecrecover env (Nat.pred max_depth))
                  (block_timestamp env) script
                  (paying id (final_status (call m)) (payee (call m) t) s) eq_refl) as Hre.
    eapply Forall_impl; [exact Hre|].
    intros [[s_i m_i] out_i] [_ H]. exact H.
  - intros j Hne Hex.
    apply success_step in Hd
      as (_ & _ & pre & evs & _ & _ & _ & _ & _ & _ & Hj); [|done].
    destruct (Hj j Hne) as [Heq|(Hu & _)]; [exact Heq|done].
Qed.

(** X15. The timelock gates [refund] only: whether
    [withdrawWithPreimage] or [resolveDispute] succeeds, and with which
    revert it fails, does not depend on the block's timestamp; both stay
    open after the timelock has passed, for as long as the trade is
    [Locked]. *)
Theorem timelock_gates_refund_only env now' sd id s :
  reachable' s ->
  let env' := {| block_timestamp := now'; on_receive := on_receive env |} in
  (forall p sig1 sig2,
      fst (transact' env
             {| sender := sd; call := CallWithdrawWithPreimage id p sig1 sig2 |} s) =
      fst (transact' env'
             {| sender := sd; call := CallWithdrawWithPreimage id p sig1 sig2 |} s)) /\
  (forall r sig1 sig2,
      fst (transact' env
             {| sender := sd; call := CallResolveDispute id r sig1 sig2 |} s) =
      fst (transact' env'
             {| sender := sd; call := CallResolveDispute id r sig1 sig2 |} s)).
Proof using Type.
  intros Hs env'. split.
  - intros p sig1 sig2. unfold transact'.
    rewrite !withdrawWithPreimage_outcome by done. cbn zeta. cbn [on_receive env'].
    destruct (negb (Status.eqb _ _)); [done|].
    destruct (negb (_ =? _)); [done|].
    destruct (ECDSA_signer _ _ sig1) as [a|]; [|done].
    destruct (ECDSA_signer _ _ sig2) as [b|]; [|done].
    destruct (negb _); [done|].
    destruct (on_receive env _ _); cbn [fst]; reflexivity.
  - intros r sig1 sig2. unfold transact'.
    rewrite !resolveDispute_outcome by done. cbn zeta. cbn [on_receive env'].
    destruct (negb (Status.eqb _ _)); [done|].
    destruct (negb (_ || _)); [done|].
    destruct (ECDSA_signer _ _ sig1) as [a|]; [|done].
    destruct (ECDSA_signer _ _ sig2) as [b|]; [|done].
    destruct (negb _); [done|].
    destruct (on_receive env _ _); cbn [fst]; reflexivity.
Qed.

End Further.

(** * The further properties on concrete inputs *)

Lemma balance_is_escrow_witness :
  reachable toy_hash toy_hash toy_ecrecover s_locked /\
  entered s_locked = false /\ balance s_locked = locked_total (trades s_locked).
Proof.
  split; [exact reachable_s_locked|].
  exact (balance_is_escrow toy_hash toy_hash toy_ecrecover s_locked reachable_s_locked).
Defined.

Lemma deposits_are_conserved_witness :
  reachable toy_hash toy_hash toy_ecrecover s_refunded /\
  deposited (effects s_refunded) = balance s_refunded + paid_total (effects s_refunded).
Proof.
  split; [exact reachable_s_refunded|].
  exact (deposits_are_conserved toy_hash toy_hash toy_ecrecover s_refunded
           reachable_s_refunded).
Defined.

Lemma stored_trades_well_formed_witness :
  reachable toy_hash toy_hash toy_ecrecover s_locked /\
  well_formed (trades s_locked !!! 1) /\ trades s_locked !!! 2 = zero_trade.
Proof.
  split; [exact reachable_s_locked|]. split.
  - apply (stored_trades_well_formed toy_hash toy_hash toy_ecrecover s_locked 1
             reachable_s_locked).
    vm_compute. discriminate.
  - apply (stored_trades_well_formed toy_hash toy_hash toy_ecrecover s_locked 2
             reachable_s_locked).
    vm_compute. reflexivity.
Defined.

Lemma locked_events_match_trades_witness :
  reachable toy_hash toy_hash toy_ecrecover s_refunded /\
  locked_event_of 1 (trades s_refunded !!! 1) ∈ effects s_refunded.
Proof.
  split; [exact reachable_s_refunded|].
  destruct (locked_events_match_trades toy_hash toy_hash toy_ecrecover s_refunded
              reachable_s_refunded) as [_ H].
  apply (H 1). vm_compute. discriminate.
Defined.

Lemma terminal_events_match_trades_witness :
  reachable toy_hash toy_hash toy_ecrecover s_refunded /\
  Emit (Refunded 1 (buyer (trades s_refunded !!! 1))) ∈ effects s_refunded.
Proof.
  split; [exact reachable_s_refunded|].
  destruct (terminal_events_match_trades toy_hash toy_hash toy_ecrecover s_refunded
              reachable_s_refunded 1) as (_ & H & _).
  apply H. vm_compute. reflexivity.
Defined.

Lemma trade_terms_are_fixed_witness :
  reachable toy_hash toy_hash toy_ecrecover s_locked /\
  status (trades s_locked !!! 1) <> Status.Uninitialized /\
  let t' := trades (run toy_hash toy_hash toy_ecrecover
                      [(quiet 5000, {| sender := 7; call := CallRefund 1 |})]
                      s_locked) !!! 1 in
  t' = with_status (status t') (trades s_locked !!! 1).
Proof.
  split; [exact reachable_s_locked|].
  assert (status (trades s_locked !!! 1) <> Status.Uninitialized) as Hne
    by (vm_compute; discriminate).
  split; [exact Hne|].
  exact (proj1 (trade_terms_are_fixed toy_hash toy_hash toy_ecrecover s_locked 1
                  [(quiet 5000, {| sender := 7; call := CallRefund 1 |})]
                  reachable_s_locked Hne)).
Defined.

(** The signatures of buyer and seller release the deposit in either
    order; an empty signature and one of 64 bytes fail in either order,
    each order with the length error of its own first signature. *)
Lemma signature_order_is_irrelevant_witness :
  reachable toy_hash toy_hash toy_ecrecover s_locked /\
  toy_transact (quiet 1001)
    {| sender := 8; call := CallWithdrawWithPreimage 1 42 (toy_sig 7) (toy_sig 8) |} s_locked =
  toy_transact (quiet 1001)
    {| sender := 8; call := CallWithdrawWithPreimage 1 42 (toy_sig 8) (toy_sig 7) |} s_locked /\
  fst (toy_transact (quiet 1001)
         {| sender := 8; call := CallWithdrawWithPreimage 1 42 [] (repeat 0 64) |} s_locked)
  = Reverted (ECDSAInvalidSignatureLength 0) /\
  fst (toy_transact (quiet 1001)
         {| sender := 8; call := CallWithdrawWithPreimage 1 42 (repeat 0 64) [] |} s_locked)
  = Reverted (ECDSAInvalidSignatureLength 64).
Proof.
  split; [exact reachable_s_locked|].
  destruct (signature_order_is_irrelevant toy_hash toy_hash toy_ecrecover
              (quiet 1001) 8 1 s_locked reachable_s_locked) as [H _].
  destruct (H 42 (toy_sig 7) (toy_sig 8)) as (_ & _ & Heq & _).
  destruct (H 42 [] (repeat 0 64)) as (_ & _ & _ & Hdiff).
  destruct Hdiff as [Ha Hb]; try (vm_compute; reflexivity).
  unfold toy_transact. split; [|split].
  - apply Heq. left. exists 7. vm_compute. reflexivity.
  - eapply eq_trans; [exact Ha|]. vm_compute. reflexivity.
  - eapply eq_trans; [exact Hb|]. vm_compute. reflexivity.
Defined.

Lemma first_lock_succeeds :
  fst (transact toy_hash toy_hash toy_ecrecover (quiet 1000) first_lock init) = Success.
Proof. vm_compute. reflexivity. Defined.

Lemma deposit_refundable_witness :
  fst (toy_transact (quiet 1000) first_lock init) = Success /\
  toy_transact (quiet 4599) {| sender := 7; call := CallRefund 1 |} s_locked
    = (Reverted TimelockNotExpired, s_locked) /\
  fst (toy_transact (quiet 4600) {| sender := 3; call := CallRefund 1 |} s_locked)
    = Success.
Proof.
  split; [exact first_lock_succeeds|]. split.
  - apply (deposit_refundable toy_hash toy_hash toy_ecrecover (quiet 1000) (quiet 4599)
             7 5 1 8 9 (toy_hash (be_bytes 32 42)) 3600 7 init
             (reachable_init _ _ _) first_lock_succeeds).
    vm_compute. reflexivity.
  - apply (deposit_refundable toy_hash toy_hash toy_ecrecover (quiet 1000) (quiet 4600)
             7 5 1 8 9 (toy_hash (be_bytes 32 42)) 3600 3 init
             (reachable_init _ _ _) first_lock_succeeds).
    + vm_compute. discriminate.
    + eexists. reflexivity.
Defined.

Lemma deposit_released_by_preimage_witness :
  fst (toy_transact (quiet 1000) first_lock init) = Success /\
  fst (toy_transact (quiet 1001)
         {| sender := 3; call := CallWithdrawWithPreimage 1 42 (toy_sig 7) (toy_sig 8) |} s_locked)
    = Success.
Proof.
  split; [exact first_lock_succeeds|].
  apply (deposit_released_by_preimage toy_hash toy_hash toy_ecrecover
           (quiet 1000) (quiet 1001) 7 5 1 8 9 3600 42 (toy_sig 7) (toy_sig 8) 3 init
           (reachable_init _ _ _) first_lock_succeeds).
  - reflexivity.
  - reflexivity.
  - eexists. reflexivity.
Defined.

Lemma deposit_awarded_by_arbitration_witness :
  fst (toy_transact (quiet 1000) first_lock init) = Success /\
  fst (toy_transact (quiet 1001)
         {| sender := 3; call := CallResolveDispute 1 7 (toy_sig 7) (toy_sig 9) |} s_locked)
    = Success.
Proof.
  split; [exact first_lock_succeeds|].
  apply (deposit_awarded_by_arbitration toy_hash toy_hash toy_ecrecover
           (quiet 1000) (quiet 1001) 7 5 1 8 9 (toy_hash (be_bytes 32 42)) 3600
           7 (toy_sig 7) (toy_sig 9) 7 9 3 init (reachable_init _ _ _) first_lock_succeeds).
  - by left.
  - reflexivity.
  - reflexivity.
  - discriminate.
  - by left.
  - right. by right.
  - eexists. reflexivity.
Defined.

Lemma rejected_before_signatures_witness :
  reachable toy_hash toy_hash toy_ecrecover s_locked /\
  toy_transact (quiet 1001)
    {| sender := 8; call := CallWithdrawWithPreimage 1 43 (toy_sig 7) (toy_sig 8) |} s_locked
  = (Reverted InvalidPreimage, s_locked).
Proof.
  split; [exact reachable_s_locked|].
  destruct (rejected_before_signatures toy_hash toy_hash toy_ecrecover (quiet 1001)
              8 1 s_locked reachable_s_locked) as [H _].
  - vm_compute. reflexivity.
  - apply (H 43 (toy_sig 7) (toy_sig 8)). vm_compute. discriminate.
Defined.

(** An empty second signature: the arbitration reverts with the length
    error of the library, for length 0. *)
Lemma unrecoverable_signature_rejected_witness :
  reachable toy_hash toy_hash toy_ecrecover s_locked /\
  toy_transact (quiet 1001)
    {| sender := 8; call := CallResolveDispute 1 7 (toy_sig 7) [] |} s_locked
  = (Reverted (ECDSAInvalidSignatureLength 0), s_locked).
Proof.
  split; [exact reachable_s_locked|].
  destruct (unrecoverable_signature_rejected toy_hash toy_hash toy_ecrecover
              (quiet 1001) 8 1 s_locked reachable_s_locked) as (_ & H & _).
  - vm_compute. reflexivity.
  - pose proof (H 7 (toy_sig 7) []) as H'. cbv zeta in H'.
    unfold toy_transact. rewrite H'.
    + vm_compute. reflexivity.
    + left. vm_compute. reflexivity.
    + right. vm_compute. reflexivity.
Defined.

Lemma refused_payment_blocks_payout_witness :
  reachable toy_hash toy_hash toy_ecrecover s_locked /\
  toy_transact (stubborn 5000) {| sender := 7; call := CallRefund 1 |} s_locked
  = (Reverted TransferFailed, s_locked).
Proof.
  split; [exact reachable_s_locked|].
  destruct (refused_payment_blocks_payout toy_hash toy_hash toy_ecrecover
              (stubborn 5000) {| sender := 7; call := CallRefund 1 |} s_locked
              reachable_s_locked eq_refl eq_refl) as [_ H].
  apply (H 1); [reflexivity|vm_compute; reflexivity|vm_compute; discriminate].
Defined.

Lemma no_payout_inside_a_payout_witness :
  reachable toy_hash toy_hash toy_ecrecover s_locked /\
  fst (toy_transact (greedy 5000) {| sender := 7; call := CallRefund 1 |} s_locked)
    = Success /\
  exists script,
    on_receive (greedy 5000) 7 5 = Some script /\
    Forall (fun '(s_i, m_i, out_i) =>
              is_lock (call m_i) = false ->
              out_i = Reverted ReentrancyGuardReentrantCall /\
              snd (attempt (reentrant_call toy_hash toy_hash toy_ecrecover
                              (greedy 5000) m_i) s_i) = s_i)
           (reentries (reentrant_call toy_hash toy_hash toy_ecrecover (greedy 5000))
              script (paying 1 Status.Refunded 7 s_locked)).
Proof.
  split; [exact reachable_s_locked|].
  assert (fst (toy_transact (greedy 5000) {| sender := 7; call := CallRefund 1 |}
                 s_locked) = Success) as Hok by (vm_compute; reflexivity).
  split; [exact Hok|].
  destruct (no_payout_inside_a_payout toy_hash toy_hash toy_ecrecover
              (greedy 5000) {| sender := 7; call := CallRefund 1 |} s_locked
              reachable_s_locked eq_refl Hok) as (script & Hacc & Hall & _).
  exists script. split; [exact Hacc|exact Hall].
Defined.

(** After the timelock 4600 of [s_locked] the seller can still withdraw. *)
Lemma timelock_gates_refund_only_witness :
  reachable toy_hash toy_hash toy_ecrecover s_locked /\
  fst (toy_transact (quiet 1001)
         {| sender := 8; call := CallWithdrawWithPreimage 1 42 (toy_sig 7) (toy_sig 8) |} s_locked) =
  fst (toy_transact {| block_timestamp := 9000; on_receive := on_receive (quiet 1001) |}
         {| sender := 8; call := CallWithdrawWithPreimage 1 42 (toy_sig 7) (toy_sig 8) |} s_locked).
Proof.
  split; [exact reachable_s_locked|].
  exact (proj1 (timelock_gates_refund_only toy_hash toy_hash toy_ecrecover
                  (quiet 1001) 9000 8 1 s_locked reachable_s_locked) 42 (toy_sig 7) (toy_sig 8)).
Defined.
